(** * owl-shop: the traffic-simulation engine of [pkg/shop/shop.go]

    A shallow embedding of [New], [Shop.Start] and
    [Shop.SimulatePageImpression].

    - [New] is straight-line code that calls collaborators which may fail; it
      is embedded in a small state-and-error monad over a [World] that records
      every call, the clock and the background goroutines started so far.
    - [Start] never terminates and spawns goroutines; it is embedded as a
      labelled transition system whose state holds the program point of the
      [Start] goroutine, the metrics counter and the pool of goroutines, each
      with its own program point.  A label says which goroutine moves and
      carries whatever the outside world decides for that move. *)

From Stdlib Require Import ZArith Lia.
From stdpp Require Import base tactics option list strings.
From Equations Require Import Equations.

Local Open Scope string_scope.
Local Open Scope list_scope.
Local Open Scope Z_scope.

(** ** Go values used by the engine *)

(** Go's [error] values.  [Errorf msg] is [fmt.Errorf(msg)] with no wrapped
    cause, [Wrapf prefix e] is [fmt.Errorf("<prefix>: %w", e)], [Opaque msg] is
    an error value made by a collaborator, and [DeadlineExceeded] is
    [context.DeadlineExceeded]. *)
Inductive error : Type :=
| DeadlineExceeded
| Opaque (msg : string)
| Errorf (msg : string)
| Wrapf (prefix : string) (cause : error).

(** [errors.Unwrap]. *)
Definition Unwrap (e : error) : option error :=
  match e with
  | Wrapf _ c => Some c
  | _ => None
  end.

(** [err.Error()]. *)
Fixpoint Error (e : error) : string :=
  match e with
  | DeadlineExceeded => "context deadline exceeded"
  | Opaque msg => msg
  | Errorf msg => msg
  | Wrapf prefix c => prefix +:+ ": " +:+ Error c
  end.



(** The four producers, under the names [New] binds them to. *)
Inductive Producer : Type := customerSvc | addressSvc | frontendSvc | orderSvc.

#[global] Instance Producer_eq_dec : EqDecision Producer.
Proof. solve_decision. Defined.

(** The method values registered with the chooser. *)
Inductive Action : Type :=
| CreateFrontendEvent
| CreateCustomer
| CreateAddress
| DeleteCustomer
| ModifyCustomer
| CreateOrder.

#[global] Instance Action_eq_dec : EqDecision Action.
Proof. solve_decision. Defined.


(** A value of type [interface{}], as [Chooser.Pick] returns it.
    Modelled from the spec: the producers' action methods are declared outside
    shop.go; the spec gives them as zero-argument, no-result callables, so a
    method value has dynamic type [func()].  [VOther] stands for a value of any
    other dynamic type. *)
Inductive Value : Type :=
| VFunc (fn : Action)
| VOther (dynamicType : string).

(** The type assertion [v.(func())] in its two-result form. *)
Definition assertFunc (v : Value) : option Action :=
  match v with
  | VFunc fn => Some fn
  | VOther _ => None
  end.

(** [weightedrand.Choice]. *)
Record Choice : Type := mkChoice { Item : Value; Weight : Z }.

(** [time.Duration]: nanoseconds. *)
Definition Nanosecond : Z := 1.
Definition Second : Z := 1000000000 * Nanosecond.
Definition Minute : Z := 60 * Second.

(** [context.Context], as far as [New] uses it: the instant after which the
    context is done, if any. *)
Record Context : Type := mkContext { deadline : option Z }.

Definition Background : Context := {| deadline := None |}.

(** [context.WithDeadline]: a parent that is done earlier wins. *)
Definition WithDeadline (parent : Context) (d : Z) : Context :=
  match deadline parent with
  | Some cur => if cur <? d then parent else {| deadline := Some d |}
  | None => {| deadline := Some d |}
  end.

(** [context.WithTimeout parent timeout], evaluated at instant [now]. *)
Definition WithTimeout (now : Z) (parent : Context) (timeout : Z) : Context :=
  WithDeadline parent (now + timeout).

(** Package [config], as far as the engine reads it.  The Kafka and schema
    registry sections are only handed on to the factories. *)
Module config.
Record ShopConfig : Type := mkShopConfig {
  RequestRate : Z;
  RequestRateInterval : Z
}.

Record Config : Type := mkConfig {
  Kafka : string;
  SchemaRegistry : string;
  Shop : ShopConfig
}.
End config.

(** [*zap.Logger]: the root logger and its named children. *)
Inductive Logger : Type :=
| RootLogger
| Named (parent : Logger) (name : string).

(** ** The world [New] runs in *)

(** A goroutine started by [New]: [go p.Start()]. *)
Inductive Task : Type := StartTask (p : Producer).

(** One entry per call [New] makes, in program order, with what the call
    returned. *)
Inductive Event : Type :=
| EvNewFactory (pkg : string) (logger : Logger)
| EvNewSchemaRegistryClient (err : option error)
| EvNewService (p : Producer) (logger : Logger) (err : option error)
| EvWithTimeout (at_ : Z) (parent : Context) (timeout : Z)
| EvInitialize (p : Producer) (ctx : Context) (from to : Z) (err : option error)
| EvGo (t : Task)
| EvNewChooser (cs : list Choice) (err : option error)
| EvCancel (ctx : Context).

(** The clock moves only inside [Initialize]: no other call is given a
    duration, so the instant at which [New] is entered is also the instant at
    which it makes its context. *)
Record World : Type := mkWorld {
  now : Z;                  (* the clock, in nanoseconds *)
  trace : list Event;       (* calls made so far, oldest first *)
  background : list Task    (* goroutines started so far, oldest first *)
}.

(** What the collaborators of [New] answer.  None of them is in shop.go, so
    [New] is embedded over all possible answers.  [Initialize p ctx t] is
    called at instant [t] and gives the instant at which it returns together
    with its error, if any. *)
Record Collaborators (Chooser : Type) : Type := mkCollaborators {
  NewSchemaRegistryClient : string -> option error;
  NewService : Producer -> config.ShopConfig -> Logger -> option error;
  Initialize : Producer -> Context -> Z -> Z * option error;
  NewChooser : list Choice -> Chooser + error
}.
Arguments NewSchemaRegistryClient {Chooser} _ _.
Arguments NewService {Chooser} _ _ _ _.
Arguments Initialize {Chooser} _ _ _ _.
Arguments NewChooser {Chooser} _ _.

(** ** A state-and-error monad for [New] *)

Inductive result (A : Type) : Type :=
| Ok (a : A)
| Err (e : error).
Arguments Ok {A} a.
Arguments Err {A} e.

Definition M (A : Type) : Type := World -> World * result A.

Definition ret {A} (a : A) : M A := fun w => (w, Ok a).

Definition fail {A} (e : error) : M A := fun w => (w, Err e).

Definition bind {A B} (m : M A) (k : A -> M B) : M B :=
  fun w =>
    match m w with
    | (w', Ok a) => k a w'
    | (w', Err e) => (w', Err e)
    end.

Notation "'let*' x ':=' m 'in' k" := (bind m (fun x => k))
  (at level 10, x name, m at level 100, k at level 200).

Definition emit (ev : Event) : M unit :=
  fun w => ({| now := now w; trace := trace w ++ [ev]; background := background w |}, Ok tt).

Definition getNow : M Z := fun w => (w, Ok (now w)).

Definition setNow (t : Z) : M unit :=
  fun w => ({| now := t; trace := trace w; background := background w |}, Ok tt).

(** [if err != nil { return nil, wrap(err) }] around a call. *)
Definition check (wrap : error -> error) (err : option error) : M unit :=
  match err with
  | Some e => fail (wrap e)
  | None => ret tt
  end.

(** [go t]. *)
Definition go (t : Task) : M unit :=
  fun w =>
    ({| now := now w; trace := trace w ++ [EvGo t]; background := background w ++ [t] |}, Ok tt).

(** [ctx, cancel := context.WithTimeout(parent, timeout); defer cancel()]
    followed by [body]: the deferred call runs when [body] is left, whichever
    way. *)
Definition withTimeout {A} (parent : Context) (timeout : Z) (body : Context -> M A) : M A :=
  fun w =>
    let ctx := WithTimeout (now w) parent timeout in
    match emit (EvWithTimeout (now w) parent timeout) w with
    | (w1, _) =>
        match body ctx w1 with
        | (w2, r) => (fst (emit (EvCancel ctx) w2), r)
        end
    end.

(** ** [New] *)

(** [type Shop struct]. *)
Record Shop (Chooser : Type) : Type := mkShop {
  cfg : config.Config;
  logger : Logger;
  chooser : Chooser;
  customerSvc_ : Producer
}.
Arguments mkShop {Chooser} _ _ _ _.
Arguments cfg {Chooser} _.
Arguments logger {Chooser} _.
Arguments chooser {Chooser} _.
Arguments customerSvc_ {Chooser} _.

(** The arguments of the call to [weightedrand.NewChooser], lines 86 to 91. *)
Definition choices : list Choice :=
  [ {| Item := VFunc CreateFrontendEvent; Weight := 1000 |};
    {| Item := VFunc CreateCustomer; Weight := 50 |};
    {| Item := VFunc CreateAddress; Weight := 30 |};
    {| Item := VFunc DeleteCustomer; Weight := 8 |};
    {| Item := VFunc ModifyCustomer; Weight := 6 |};
    {| Item := VFunc CreateOrder; Weight := 5 |} ].

Section New.
Context {Chooser : Type}.
Variable E : Collaborators Chooser.

Definition callNewSchemaRegistryClient (c : config.Config) : M unit :=
  let err := NewSchemaRegistryClient E (config.SchemaRegistry c) in
  let* _ := emit (EvNewSchemaRegistryClient err) in
  check (fun _ => Errorf "failed to create schema registry client") err.

Definition callNewService (p : Producer) (c : config.Config) (l : Logger)
    (wrap : error -> error) : M Producer :=
  let err := NewService E p (config.Shop c) l in
  let* _ := emit (EvNewService p l err) in
  let* _ := check wrap err in
  ret p.

Definition callInitialize (p : Producer) (ctx : Context) (wrap : error -> error) : M unit :=
  let* t := getNow in
  let '(t', err) := Initialize E p ctx t in
  let* _ := setNow t' in
  let* _ := emit (EvInitialize p ctx t t' err) in
  check wrap err.

Definition callNewChooser (cs : list Choice) (wrap : error -> error) : M Chooser :=
  match NewChooser E cs with
  | inl wr => let* _ := emit (EvNewChooser cs None) in ret wr
  | inr e => let* _ := emit (EvNewChooser cs (Some e)) in fail (wrap e)
  end.

Definition New (c : config.Config) (l : Logger) : M (Shop Chooser) :=
  let* _ := emit (EvNewFactory "kafka" (Named l "kafka_client")) in
  let* _ := emit (EvNewFactory "sr" (Named l "schema_registry")) in
  let* _ := callNewSchemaRegistryClient c in
  let* customer := callNewService customerSvc c l
                     (Wrapf "failed to create customer service") in
  let* address := callNewService addressSvc c (Named l "address_svc")
                    (Wrapf "failed to create address service") in
  let* frontend := callNewService frontendSvc c (Named l "frontend_svc")
                     (Wrapf "failed to create frontend service") in
  let* order := callNewService orderSvc c (Named l "order_svc")
                  (Wrapf "failed to create order service") in
  withTimeout Background Minute (fun ctx =>
    let* _ := callInitialize customer ctx (Wrapf "failed to initialize customer service") in
    let* _ := callInitialize address ctx (Wrapf "failed to initialize address service") in
    let* _ := callInitialize frontend ctx (Wrapf "failed to initialize frontend service") in
    let* _ := callInitialize order ctx (Wrapf "failed to initialize order service") in
    let* _ := go (StartTask address) in
    let* _ := go (StartTask order) in
    let* wr := callNewChooser choices (Wrapf "failed to create random chooser") in
    ret {| cfg := c; logger := l; chooser := wr; customerSvc_ := customer |}).

(** A fresh process at instant [t0]. *)
Definition boot (t0 : Z) : World := {| now := t0; trace := []; background := [] |}.

(** [New] as Go returns it: a pointer to a Shop or nil, and an error or
    nil, next to the world it leaves behind. *)
Definition runNew (c : config.Config) (l : Logger) (t0 : Z)
    : World * (option (Shop Chooser) * option error) :=
  match New c l (boot t0) with
  | (w, Ok s) => (w, (Some s, None))
  | (w, Err e) => (w, (None, Some e))
  end.
End New.

(** ** Reading a run of [New] *)

(** The declared order of the producers: the order of lines 61 to 79. *)
Definition producers : list Producer := [customerSvc; addressSvc; frontendSvc; orderSvc].

Definition position (p : Producer) : nat :=
  match p with
  | customerSvc => 0
  | addressSvc => 1
  | frontendSvc => 2
  | orderSvc => 3
  end.

Definition name (p : Producer) : string :=
  match p with
  | customerSvc => "customer"
  | addressSvc => "address"
  | frontendSvc => "frontend"
  | orderSvc => "order"
  end.

(** A call to [Initialize] as a trace records it. *)
Record InitCall : Type := mkInitCall {
  callee : Producer;
  context : Context;
  entered : Z;
  returned : Z;
  failure : option error
}.

(** The calls to [Initialize] in a trace, oldest first. *)
Definition initCalls (tr : list Event) : list InitCall :=
  omap (fun ev => match ev with
                  | EvInitialize p ctx a b err => Some (mkInitCall p ctx a b err)
                  | _ => None
                  end) tr.


(** The timeouts of the contexts made in a trace. *)
Definition timeouts (tr : list Event) : list Z :=
  omap (fun ev => match ev with
                  | EvWithTimeout _ _ d => Some d
                  | _ => None
                  end) tr.

(** The argument lists of the calls to [NewChooser] in a trace. *)
Definition chooserCalls (tr : list Event) : list (list Choice) :=
  omap (fun ev => match ev with
                  | EvNewChooser cs _ => Some cs
                  | _ => None
                  end) tr.

(** The goroutines started in a trace. *)
Definition started (tr : list Event) : list Task :=
  omap (fun ev => match ev with
                  | EvGo t => Some t
                  | _ => None
                  end) tr.

(** Modelled from the spec: [Initialize] of the producers, which is declared
    outside shop.go.  The spec gives it as [initialize(deadline) -> success |
    failure(cause)], synchronous, failing with a deadline-exceeded cause when
    the deadline elapses before it has finished.  Producer [p] needs [work p]
    nanoseconds and then ends with [outcome p]; entered at instant [t] under a
    context that is done before [t + work p], it gives up at the deadline (at
    once when the deadline has passed) with [context.DeadlineExceeded]. *)
Definition InitializeWithin (work : Producer → Z) (outcome : Producer → option error)
    (p : Producer) (ctx : Context) (t : Z) : Z * option error :=
  match deadline ctx with
  | Some d =>
      if d <? t + work p then (Z.max t d, Some DeadlineExceeded)
      else (t + work p, outcome p)
  | None => (t + work p, outcome p)
  end.


(** ** The weighted chooser *)

(** Package [weightedrand] is a dependency of the repository and not part of
    its sources; [New] and the dispatch machine below are written over any
    chooser.  This module is the chooser as the spec describes it. *)
Module weightedrand.

(** Modelled from the spec: the Chooser, a cumulative-weight sequence
    [C[i] = weight[0] + ... + weight[i]] over the entries, and the total
    [C[last]]. *)
Record Chooser : Type := mkChooser {
  data : list Choice;
  totals : list Z;
  max : Z
}.

Fixpoint cumulative (acc : Z) (ws : list Z) : list Z :=
  match ws with
  | [] => []
  | w :: rest => (acc + w) :: cumulative (acc + w) rest
  end.

Definition sumWeights (cs : list Choice) : Z :=
  foldr (λ ch acc, Weight ch + acc) 0 cs.

(** Modelled from the spec: construction, which fails on zero entries and on
    any non-positive weight. *)
Definition NewChooser (cs : list Choice) : Chooser + error :=
  match cs with
  | [] => inr (Opaque "zero Choices")
  | _ :: _ =>
      if forallb (λ ch, 0 <? Weight ch) cs
      then inl {| data := cs;
                  totals := cumulative 0 (Weight <$> cs);
                  max := sumWeights cs |}
      else inr (Opaque "non-positive Weight")
  end.

(** Binary search for the smallest index in [[i, j)] at which [f] holds
    ([j] when there is none), halving the interval. *)
Equations? search (f : nat → bool) (i j : nat) : nat by wf (j - i)%nat lt :=
  search f i j with decide (i < j)%nat => {
    | left _ with f ((i + j) / 2)%nat => {
        | true => search f i ((i + j) / 2)%nat
        | false => search f (S ((i + j) / 2)%nat) j }
    | right _ => i }.
Proof.
  all: assert (i ≤ (i + j) / 2 < j)%nat
    by (split; [apply Nat.div_le_lower_bound | apply Nat.Div0.div_lt_upper_bound]; lia).
  all: change (Nat.divmod (i + j) 1 0 1).1 with ((i + j) / 2)%nat; lia.
Qed.

(** A draw from the process-wide random source, [rand.Intn n]: uniform in
    [[0, n)]; there is no draw when [n] is not positive.  [u] is what the
    source yields. *)
Definition Intn (u : Z) (n : Z) : option Z :=
  if n <=? 0 then None else Some (u mod n).

(** Modelled from the spec: [pick], which draws [r] in [[0, total)], finds the
    smallest index [i] with [C[i] > r] by binary search and returns the action
    at [i].  [None] is a failure at pick time. *)
Definition Pick (c : Chooser) (u : Z) : option Value :=
  r ← Intn u (max c);
  let above (h : nat) : bool :=
    match totals c !! h with
    | Some t => r <? t
    | None => true
    end in
  Item <$> data c !! search above 0 (length (totals c)).

End weightedrand.

(** ** The process [Start] runs in *)

(** Go's [int] on 64-bit targets, and [i++] on it. *)
Definition MaxInt : Z := 2 ^ 63 - 1.

Definition wrapInt (z : Z) : Z := (z + 2 ^ 63) mod 2 ^ 64 - 2 ^ 63.

(** How a dispatched action ended; a [func()] reports neither. *)
Inductive Outcome : Type := Succeeded | Failed.

(** Program points of [go func() { err := http.ListenAndServe(...); s.logger.Info(...) }()],
    lines 111 to 114. *)
Inductive ServePC : Type :=
| SvListen                (* inside ListenAndServe *)
| SvLog (err : error)     (* ListenAndServe has returned err; about to log *)
| SvExit.                 (* the function literal has returned *)

(** Program points of the function literal of [SimulatePageImpression],
    lines 129 to 135. *)
Inductive ImpressionPC : Type :=
| ImPick                               (* about to call s.chooser.Pick() *)
| ImCheck (v : Value)                  (* v picked; about to assert func() and test isOk *)
| ImFatal (v : Value)                  (* inside s.logger.Fatal: the process is gone *)
| ImCall (fn : Action)                 (* inside fn() *)
| ImExit (fn : Action) (o : Outcome).  (* fn() has returned *)

Inductive Goroutine : Type :=
| GTask (t : Task)                (* started by New; its body is not in shop.go *)
| GServe (pc : ServePC)
| GImpression (pc : ImpressionPC).

Inductive Level : Type := InfoLevel | FatalLevel.

Record LogEntry : Type := mkLogEntry {
  level : Level;
  message : string;
  field : option error
}.

(** Program points of [Start], lines 110 to 122.  [PReturn] is the point
    after the function body. *)
Inductive MainPC : Type :=
| PHandle             (* line 110 *)
| PGoServe            (* line 111 *)
| POuter              (* line 116: for { *)
| PCond (i : Z)       (* line 117: i < s.cfg.Shop.RequestRate *)
| PInc (i : Z)        (* line 118 *)
| PSimulate (i : Z)   (* line 119 *)
| PPost (i : Z)       (* line 117: i++ *)
| PSleep              (* line 121 *)
| PReturn.

(** What the [Start] goroutine has done so far. *)
Inductive MainEvent : Type :=
| Handle (pattern : string)
| GoServe
| Inc
| Dispatch
| Sleep (d : Z).

Record State : Type := mkState {
  pc : MainPC;
  pageImpressionsSimulated : Z;   (* the metrics counter *)
  goroutines : list Goroutine;    (* every goroutine but the one running Start *)
  output : list LogEntry;         (* what the logger has written *)
  exited : bool;                  (* os.Exit has been called *)
  history : list MainEvent        (* oldest first *)
}.

(** What the outside world supplies when a goroutine moves. *)
Inductive Input : Type :=
| Tick                       (* nothing *)
| Random (u : Z)             (* the random source yields u *)
| Returns (o : Outcome)      (* the running action returns *)
| ServeError (err : error).  (* ListenAndServe returns err *)

Inductive Label : Type :=
| Main                       (* the goroutine running Start moves *)
| Go (j : nat) (inp : Input).  (* goroutine j of the pool moves *)

(** The process right after [New], with the goroutines [New] started. *)
Definition startState (bg : list Task) : State :=
  {| pc := PHandle;
     pageImpressionsSimulated := 0;
     goroutines := GTask <$> bg;
     output := [];
     exited := false;
     history := [] |}.

(** The process when [Start] first stands at the head of its outer loop. *)
Definition loopEntry (bg : list Task) : State :=
  {| pc := POuter;
     pageImpressionsSimulated := 0;
     goroutines := (GTask <$> bg) ++ [GServe SvListen];
     output := [];
     exited := false;
     history := [Handle "/metrics"; GoServe] |}.

Definition goto (p : MainPC) (st : State) : State :=
  {| pc := p;
     pageImpressionsSimulated := pageImpressionsSimulated st;
     goroutines := goroutines st;
     output := output st;
     exited := exited st;
     history := history st |}.

Definition record (ev : MainEvent) (st : State) : State :=
  {| pc := pc st;
     pageImpressionsSimulated := pageImpressionsSimulated st;
     goroutines := goroutines st;
     output := output st;
     exited := exited st;
     history := history st ++ [ev] |}.

(** [go f]: a new goroutine enters the pool; the caller goes on. *)
Definition spawn (g : Goroutine) (st : State) : State :=
  {| pc := pc st;
     pageImpressionsSimulated := pageImpressionsSimulated st;
     goroutines := goroutines st ++ [g];
     output := output st;
     exited := exited st;
     history := history st |}.

(** [pageImpressionsSimulated.Inc()].
    Modelled from the spec: the counter is declared outside shop.go; the spec
    gives it as one counter that each increment raises by exactly one. *)
Definition CounterInc (st : State) : State :=
  {| pc := pc st;
     pageImpressionsSimulated := pageImpressionsSimulated st + 1;
     goroutines := goroutines st;
     output := output st;
     exited := exited st;
     history := history st |}.

(** [SimulatePageImpression]: its whole body is one [go] statement. *)
Definition SimulatePageImpression (st : State) : State :=
  spawn (GImpression ImPick) st.

(** The log entry written on line 113. *)
Definition quitEntry (err : error) : LogEntry :=
  {| level := InfoLevel;
     message := "prometheus http handler quit";
     field := Some err |}.

(** The log entry [logger.Fatal] writes on line 132. *)
Definition fatalEntry : LogEntry :=
  {| level := FatalLevel;
     message := "randomly picked method is not a func";
     field := None |}.

Section Dispatch.
Context {Chooser : Type}.
(** The chooser's [Pick], given what the random source yields. *)
Variable Pick : Chooser → Z → Value.
Variable s : Shop Chooser.

(** One step of the goroutine running [Start]. *)
Definition Start_step (st : State) : option State :=
  match pc st with
  | PHandle => Some (goto PGoServe (record (Handle "/metrics") st))
  | PGoServe => Some (goto POuter (record GoServe (spawn (GServe SvListen) st)))
  | POuter => Some (goto (PCond 0) st)
  | PCond i =>
      if i <? config.RequestRate (config.Shop (cfg s))
      then Some (goto (PInc i) st)
      else Some (goto PSleep st)
  | PInc i => Some (goto (PSimulate i) (record Inc (CounterInc st)))
  | PSimulate i => Some (goto (PPost i) (record Dispatch (SimulatePageImpression st)))
  | PPost i => Some (goto (PCond (wrapInt (i + 1))) st)
  | PSleep =>
      Some (goto POuter (record (Sleep (config.RequestRateInterval (config.Shop (cfg s)))) st))
  | PReturn => None
  end.

(** One step of a goroutine of the pool: its next program point, what it
    logs, and whether it ends the process.  [None]: the goroutine cannot move
    on this input (it is blocked, or has returned). *)
Definition Goroutine_step (g : Goroutine) (inp : Input)
    : option (Goroutine * list LogEntry * bool) :=
  match g, inp with
  | GTask t, Tick => Some (GTask t, [], false)
  | GServe SvListen, ServeError err => Some (GServe (SvLog err), [], false)
  | GServe (SvLog err), Tick =>
      Some (GServe SvExit, [quitEntry err], false)
  | GImpression ImPick, Random u =>
      Some (GImpression (ImCheck (Pick (chooser s) u)), [], false)
  | GImpression (ImCheck v), Tick =>
      match assertFunc v with
      | Some fn => Some (GImpression (ImCall fn), [], false)
      | None =>
          Some (GImpression (ImFatal v), [fatalEntry], true)
      end
  | GImpression (ImCall fn), Returns o => Some (GImpression (ImExit fn o), [], false)
  | _, _ => None
  end.

(** One step of the process.  Nothing moves once the process has exited. *)
Definition step (l : Label) (st : State) : option State :=
  if exited st then None
  else
    match l with
    | Main => Start_step st
    | Go j inp =>
        g ← goroutines st !! j;
        '(g', out, ex) ← Goroutine_step g inp;
        Some {| pc := pc st;
                pageImpressionsSimulated := pageImpressionsSimulated st;
                goroutines := <[j := g']> (goroutines st);
                output := output st ++ out;
                exited := ex;
                history := history st |}
    end.

(** A schedule, run from [st]. *)
Fixpoint exec (ls : list Label) (st : State) : option State :=
  match ls with
  | [] => Some st
  | l :: rest =>
      match step l st with
      | Some st' => exec rest st'
      | None => None
      end
  end.

(** The states of the process that some schedule reaches. *)
Inductive reachable (bg : list Task) : State → Prop :=
| reach_start : reachable bg (startState bg)
| reach_step st l st' : reachable bg st → step l st = Some st' → reachable bg st'.

(** Runs in which only the [Start] goroutine moves. *)
Definition mainRuns (st st' : State) : Prop :=
  ∃ m, exec (replicate m Main) st = Some st'.

End Dispatch.

(** ** Reading a state *)

Definition isImpression (g : Goroutine) : bool :=
  match g with
  | GImpression _ => true
  | _ => false
  end.

(** The impressions issued so far: impression goroutines never leave the
    pool. *)
Definition issued (st : State) : nat :=
  length (filter (λ g, isImpression g = true) (goroutines st)).

Definition isWaiting (g : Goroutine) : bool :=
  match g with
  | GImpression ImPick => true
  | _ => false
  end.

(** The impression goroutines that have not yet moved at all. *)
Definition waiting (st : State) : nat :=
  length (filter (λ g, isWaiting g = true) (goroutines st)).

Definition isSleep (ev : MainEvent) : bool :=
  match ev with
  | Sleep _ => true
  | _ => false
  end.

(** The interval sleeps completed so far. *)
Definition sleeps (st : State) : nat :=
  length (filter (λ ev, isSleep ev = true) (history st)).

(** What one tick adds to the history when the rate is [R] and the interval
    is [D]. *)
Definition iterations (n : nat) : list MainEvent :=
  concat (replicate n [Inc; Dispatch]).

Definition tick (R D : Z) : list MainEvent :=
  iterations (Z.to_nat R) ++ [Sleep D].

(** What the [Start] goroutine reads and writes. *)
Definition mainView (st : State) : MainPC * Z * list MainEvent :=
  (pc st, pageImpressionsSimulated st, history st).

(** ** Invariants of the process *)

(** The history of the [Start] goroutine before the loop. *)
Definition prelude : list MainEvent := [Handle "/metrics"; GoServe].

(** Where the [Start] goroutine stands in tick number [k + 1], and what the
    counter, the pool and the history hold there.  [N] is the number of
    iterations of a tick. *)
Definition loopInv {Chooser : Type} (s : Shop Chooser) (st : State) : Prop :=
  ∃ k : nat,
    let R := config.RequestRate (config.Shop (cfg s)) in
    let D := config.RequestRateInterval (config.Shop (cfg s)) in
    let N := Z.of_nat (Z.to_nat R) in
    let base := Z.of_nat k * N in
    let past := prelude ++ concat (replicate k (tick R D)) in
    match pc st with
    | PHandle =>
        history st = [] ∧ pageImpressionsSimulated st = 0 ∧ issued st = 0%nat
    | PGoServe =>
        history st = [Handle "/metrics"] ∧ pageImpressionsSimulated st = 0 ∧
        issued st = 0%nat
    | POuter =>
        history st = past ∧ pageImpressionsSimulated st = base ∧
        Z.of_nat (issued st) = base
    | PCond i =>
        0 ≤ i ≤ N ∧ history st = past ++ iterations (Z.to_nat i) ∧
        pageImpressionsSimulated st = base + i ∧ Z.of_nat (issued st) = base + i
    | PInc i =>
        0 ≤ i < R ∧ history st = past ++ iterations (Z.to_nat i) ∧
        pageImpressionsSimulated st = base + i ∧ Z.of_nat (issued st) = base + i
    | PSimulate i =>
        0 ≤ i < R ∧ history st = past ++ iterations (Z.to_nat i) ++ [Inc] ∧
        pageImpressionsSimulated st = base + i + 1 ∧ Z.of_nat (issued st) = base + i
    | PPost i =>
        0 ≤ i < R ∧ history st = past ++ iterations (Z.to_nat i) ++ [Inc; Dispatch] ∧
        pageImpressionsSimulated st = base + i + 1 ∧
        Z.of_nat (issued st) = base + i + 1
    | PSleep =>
        history st = past ++ iterations (Z.to_nat R) ∧
        pageImpressionsSimulated st = base + N ∧ Z.of_nat (issued st) = base + N
    | PReturn => False
    end.

(** A goroutine stands inside [logger.Fatal] only in a process that has
    exited. *)
Definition fatalInv (st : State) : Prop :=
  ∀ j v, goroutines st !! j = Some (GImpression (ImFatal v)) → exited st = true.

(** ** Concrete inputs *)

(** Collaborators that always succeed; each [Initialize] takes one second. *)
Definition allGood : Collaborators unit :=
  {| NewSchemaRegistryClient := fun _ => None;
     NewService := fun _ _ _ => None;
     Initialize := fun _ _ t => (t + Second, None);
     NewChooser := fun _ => inl tt |}.

Definition demoConfig : config.Config :=
  {| config.Kafka := "localhost:9092";
     config.SchemaRegistry := "";
     config.Shop := {| config.RequestRate := 3; config.RequestRateInterval := Second |} |}.

(** The address producer fails to initialize. *)
Definition addressInitFails : Collaborators unit :=
  {| NewSchemaRegistryClient := fun _ => None;
     NewService := fun _ _ _ => None;
     Initialize := fun p _ t =>
       (t + Second,
        if decide (p = addressSvc) then Some (Opaque "topic creation failed") else None);
     NewChooser := fun _ => inl tt |}.

(** The chooser cannot be built. *)
Definition chooserFails : Collaborators unit :=
  {| NewSchemaRegistryClient := fun _ => None;
     NewService := fun _ _ _ => None;
     Initialize := fun _ _ t => (t + Second, None);
     NewChooser := fun _ => inr (Opaque "sum of Choice Weights exceeds max int") |}.

(** Every producer needs twenty seconds and honours its context. *)
Definition twentySeconds : Producer → Z := fun _ => 20 * Second.

Definition noFailure : Producer → option error := fun _ => None.

Definition slowProducers : Collaborators unit :=
  {| NewSchemaRegistryClient := fun _ => None;
     NewService := fun _ _ _ => None;
     Initialize := InitializeWithin twentySeconds noFailure;
     NewChooser := fun _ => inl tt |}.

Definition demoShop : Shop unit :=
  {| cfg := demoConfig; logger := RootLogger; chooser := tt; customerSvc_ := customerSvc |}.

Definition demoTasks : list Task := [StartTask addressSvc; StartTask orderSvc].

(** A chooser that always picks CreateOrder, and one that always picks a
    value that is no [func()]. *)
Definition pickOrder : unit → Z → Value := fun _ _ => VFunc CreateOrder.

Definition pickInt : unit → Z → Value := fun _ _ => VOther "int".

(** The process after [Start] has dispatched its first impression and that
    goroutine has picked. *)
Definition pickedInt : State :=
  {| pc := PPost 0;
     pageImpressionsSimulated := 1;
     goroutines :=
       [GTask (StartTask addressSvc); GTask (StartTask orderSvc); GServe SvListen;
        GImpression (ImCheck (VOther "int"))];
     output := [];
     exited := false;
     history := [Handle "/metrics"; GoServe; Inc; Dispatch] |}.

(** ** Reading a run of [New]: failures and cleanup *)

(** The error a call recorded, if it failed. *)
Definition eventError (ev : Event) : option error :=
  match ev with
  | EvNewSchemaRegistryClient err => err
  | EvNewService _ _ err => err
  | EvInitialize _ _ _ _ err => err
  | EvNewChooser _ err => err
  | _ => None
  end.

(** The errors the collaborators returned in a trace, oldest first. *)
Definition failures (tr : list Event) : list error := omap eventError tr.

(** What a trace holds after its first failed call. *)
Fixpoint afterFailure (tr : list Event) : list Event :=
  match tr with
  | [] => []
  | ev :: rest =>
      match eventError ev with
      | Some _ => rest
      | None => afterFailure rest
      end
  end.

(** The contexts cancelled in a trace. *)
Definition cancels (tr : list Event) : list Context :=
  omap (fun ev => match ev with
                  | EvCancel ctx => Some ctx
                  | _ => None
                  end) tr.

(** The producers whose constructor was called in a trace, oldest first. *)
Definition constructed (tr : list Event) : list Producer :=
  omap (fun ev => match ev with
                  | EvNewService p _ _ => Some p
                  | _ => None
                  end) tr.

(** ** Reading a schedule and a log *)

Definition isMain (l : Label) : bool :=
  match l with
  | Main => true
  | Go _ _ => false
  end.

(** The moves of the [Start] goroutine in a schedule. *)
Definition mainMoves (ls : list Label) : nat :=
  length (filter (λ l, isMain l = true) ls).

Definition isInfo (e : LogEntry) : bool :=
  match level e with
  | InfoLevel => true
  | FatalLevel => false
  end.

(** The entries the logger has written at Info level. *)
Definition infoEntries (st : State) : nat :=
  length (filter (λ e, isInfo e = true) (output st)).

Definition hasExited (pc : ServePC) : bool :=
  match pc with
  | SvExit => true
  | _ => false
  end.

(** ** More concrete inputs *)


(** The frontend producer cannot be constructed. *)
Definition frontendCtorFails : Collaborators unit :=
  {| NewSchemaRegistryClient := fun _ => None;
     NewService := fun p _ _ =>
       if decide (p = frontendSvc) then Some (Opaque "no seed brokers") else None;
     Initialize := fun _ _ t => (t + Second, None);
     NewChooser := fun _ => inl tt |}.

(** A shop configured with a rate of zero. *)
Definition idleShop : Shop unit :=
  {| cfg := {| config.Kafka := "localhost:9092";
               config.SchemaRegistry := "";
               config.Shop := {| config.RequestRate := 0;
                                 config.RequestRateInterval := Second |} |};
     logger := RootLogger;
     chooser := tt;
     customerSvc_ := customerSvc |}.

(** A schedule in which pool goroutines move between the moves of [Start]:
    the server fails at once, the first impression runs to its end. *)
Definition busySchedule : list Label :=
  [Main; Main; Go 2 (ServeError (Opaque "bind: address already in use")); Main; Main;
   Main; Main; Go 3 (Random 42); Go 2 Tick; Main; Go 3 Tick; Main; Main;
   Go 3 (Returns Failed); Main; Go 0 Tick].

(** ** More invariants of the process *)



(** The layout of the pool: the goroutines [New] started, then (once [Start]
    is past line 111) the one serving goroutine, then impression goroutines
    only; the log holds one Info entry when the serving goroutine has
    returned and none before. *)
Definition layoutInv (bg : list Task) (st : State) : Prop :=
  match pc st with
  | PHandle | PGoServe => goroutines st = GTask <$> bg ∧ infoEntries st = 0%nat
  | _ =>
      ∃ sv imps,
        goroutines st = (GTask <$> bg) ++ GServe sv :: imps ∧
        Forall (λ g, isImpression g = true) imps ∧
        infoEntries st = (if hasExited sv then 1 else 0)%nat
  end.

(** Where [busySchedule] takes the demo shop whose chooser picks CreateOrder. *)
Definition busyState : State :=
  {| pc := PPost 1;
     pageImpressionsSimulated := 2;
     goroutines :=
       [GTask (StartTask addressSvc); GTask (StartTask orderSvc); GServe SvExit;
        GImpression (ImExit CreateOrder Failed); GImpression ImPick];
     output := [quitEntry (Opaque "bind: address already in use")];
     exited := false;
     history := [Handle "/metrics"; GoServe; Inc; Dispatch; Inc; Dispatch] |}.

(** ** Symbolic execution of [New] *)

Ltac run_New :=
  unfold runNew, New, withTimeout, callInitialize, callNewService,
    callNewSchemaRegistryClient, callNewChooser, bind, check, emit, go,
    getNow, setNow, ret, fail, boot; simpl.

(** Case analysis on the next collaborator call, in program order. *)
Ltac next_call :=
  match goal with
  | |- context [NewSchemaRegistryClient ?E ?a] =>
      destruct (NewSchemaRegistryClient E a) eqn:?
  | |- context [NewService ?E customerSvc ?a ?b] =>
      destruct (NewService E customerSvc a b) eqn:?
  | |- context [NewService ?E addressSvc ?a ?b] =>
      destruct (NewService E addressSvc a b) eqn:?
  | |- context [NewService ?E frontendSvc ?a ?b] =>
      destruct (NewService E frontendSvc a b) eqn:?
  | |- context [NewService ?E orderSvc ?a ?b] =>
      destruct (NewService E orderSvc a b) eqn:?
  | |- context [Initialize ?E customerSvc ?a ?b] =>
      destruct (Initialize E customerSvc a b) as [? [?|]] eqn:?
  | |- context [Initialize ?E addressSvc ?a ?b] =>
      destruct (Initialize E addressSvc a b) as [? [?|]] eqn:?
  | |- context [Initialize ?E frontendSvc ?a ?b] =>
      destruct (Initialize E frontendSvc a b) as [? [?|]] eqn:?
  | |- context [Initialize ?E orderSvc ?a ?b] =>
      destruct (Initialize E orderSvc a b) as [? [?|]] eqn:?
  | |- context [NewChooser ?E ?a] =>
      destruct (NewChooser E a) eqn:?
  end; simpl.

Ltac walk_New := run_New; repeat next_call.

(** Membership of an event in a trace that is known entry by entry. *)
Ltac in_trace H :=
  repeat (apply elem_of_cons in H as [H | H]);
  [ .. | apply elem_of_nil in H; contradiction ];
  try discriminate H.

(** ** Startup: failures of [Initialize] *)

(** C3. If the run of [New] contains a call of [Initialize] on producer [p]
    that returned the error [e], then [New] returns no Shop and the error
    "failed to initialize <p> service: <e>" wrapping [e]; every [Initialize]
    call of the run is on [p] or on a producer declared before it; no
    goroutine was started, and the chooser was never built.  With no Shop
    handed back there is no receiver for [Start]. *)
Theorem New_initialize_failure_aborts {Ch} (E : Collaborators Ch) c l t0 p ctx a b e :
  EvInitialize p ctx a b (Some e) ∈ trace (fst (runNew E c l t0)) →
  snd (runNew E c l t0)
    = (None, Some (Wrapf ("failed to initialize " +:+ name p +:+ " service") e)) ∧
  (∀ q ctx' a' b' err,
      EvInitialize q ctx' a' b' err ∈ trace (fst (runNew E c l t0)) →
      (position q ≤ position p)%nat) ∧
  started (trace (fst (runNew E c l t0))) = [] ∧
  background (fst (runNew E c l t0)) = [] ∧
  chooserCalls (trace (fst (runNew E c l t0))) = [].
Proof.
  walk_New; intros H; in_trace H; inversion H; subst; clear H;
    (split; [reflexivity |]); (split; [| done]);
    intros q ctx' a' b' err H; in_trace H; inversion H; subst; simpl; lia.
Qed.

(** ** Startup: the weighted action table *)


(** ** Startup: the deadline *)


(** ** Startup: a failing chooser *)

(** C9. If the run of [New] contains a call of [NewChooser] that returned the
    error [e], then [New] returns no Shop and the error "failed to create
    random chooser: <e>", while [go addressSvc.Start()] and
    [go orderSvc.Start()] were executed just before that call: both goroutines
    are in the world [New] leaves behind, which has no step that stops them. *)
Theorem New_chooser_failure_after_go {Ch} (E : Collaborators Ch) c l t0 cs e :
  EvNewChooser cs (Some e) ∈ trace (fst (runNew E c l t0)) →
  snd (runNew E c l t0) = (None, Some (Wrapf "failed to create random chooser" e)) ∧
  background (fst (runNew E c l t0)) = [StartTask addressSvc; StartTask orderSvc] ∧
  (∃ pre post,
      trace (fst (runNew E c l t0))
        = pre ++ EvGo (StartTask addressSvc) :: EvGo (StartTask orderSvc)
              :: EvNewChooser cs (Some e) :: post ∧
      started pre = [] ∧ chooserCalls pre = []).
Proof.
  walk_New; intros H; in_trace H; inversion H; subst; clear H.
  split; [reflexivity |]. split; [reflexivity |].
  eexists (_ :: _ :: _ :: _ :: _ :: _ :: _ :: _ :: _ :: _ :: _ :: _ :: []), _.
  split; [reflexivity | done].
Qed.


(** ** Startup: one deadline for the whole sequence *)


(** ** The chooser: construction and pick *)

Section ChooserFacts.
Import weightedrand.

(** The binary search stays below [n - 1] once the predicate holds at
    [n - 1]: it never runs off the end of the cumulative weights. *)
Lemma search_below (f : nat → bool) (n i j : nat) :
  (0 < n)%nat → f (n - 1)%nat = true → (i ≤ n - 1)%nat → (j ≤ n)%nat →
  (search f i j ≤ n - 1)%nat.
Proof.
  intros Hn Hlast. funelim (search f i j); intros Hi Hj.
  - assumption.
  - match goal with IH : ∀ _ _ _ _, _ → _ → _ → _ → _ → _ → (search _ _ _ ≤ _)%nat |- _ =>
      apply (IH _ _ _ _ Hn Hlast eq_refl eq_refl); try assumption end.
    assert ((i + j) / 2 < j)%nat by (apply Nat.Div0.div_lt_upper_bound; lia). lia.
  - match goal with IH : ∀ _ _ _ _, _ → _ → _ → _ → _ → _ → (search _ _ _ ≤ _)%nat |- _ =>
      apply (IH _ _ _ _ Hn Hlast eq_refl eq_refl); try assumption end.
    assert ((i + j) / 2 < j)%nat by (apply Nat.Div0.div_lt_upper_bound; lia).
    assert ((i + j) / 2 ≠ n - 1)%nat by (intros Heq'; congruence).
    lia.
Qed.

Lemma cumulative_length acc ws : length (cumulative acc ws) = length ws.
Proof. revert acc; induction ws as [|w ws IH]; intros acc; simpl; [done | by rewrite IH]. Qed.

Lemma cumulative_last acc (cs : list Choice) ch :
  cumulative acc (Weight <$> (ch :: cs)) !! length cs
    = Some (acc + sumWeights (ch :: cs)).
Proof.
  revert acc ch; induction cs as [|c' cs IH]; intros acc ch.
  - simpl. f_equal. lia.
  - change (cumulative (acc + Weight ch) (Weight <$> (c' :: cs)) !! length cs
            = Some (acc + sumWeights (ch :: c' :: cs))).
    rewrite IH. f_equal. simpl. lia.
Qed.

Lemma sumWeights_pos (cs : list Choice) :
  cs ≠ [] → forallb (λ ch, 0 <? Weight ch) cs = true → 0 < sumWeights cs.
Proof.
  induction cs as [|ch cs IH]; [done |]. intros _ Hall. simpl in *.
  apply andb_true_iff in Hall as [Hch Hall]. apply Z.ltb_lt in Hch.
  destruct cs as [|c' cs]; [simpl; lia |].
  specialize (IH ltac:(done) Hall). simpl in *. lia.
Qed.

Lemma NewChooser_inl cs wr :
  NewChooser cs = inl wr →
  cs ≠ [] ∧ forallb (λ ch, 0 <? Weight ch) cs = true ∧
  wr = {| data := cs; totals := cumulative 0 (Weight <$> cs); max := sumWeights cs |}.
Proof.
  unfold NewChooser. destruct cs as [|ch cs]; [done |].
  destruct (forallb _ _) eqn:Hall; [| done].
  intros [= <-]. done.
Qed.

Lemma Pick_total cs wr u :
  NewChooser cs = inl wr → ∃ ch, ch ∈ cs ∧ Pick wr u = Some (Item ch).
Proof.
  intros Hnew. apply NewChooser_inl in Hnew as (Hne & Hall & ->).
  pose proof (sumWeights_pos cs Hne Hall) as Hpos.
  unfold Pick, Intn. simpl.
  destruct (Z.leb_spec (sumWeights cs) 0) as [|_]; [lia |]. simpl.
  set (r := u mod sumWeights cs).
  set (above := λ h : nat, match cumulative 0 (Weight <$> cs) !! h with
                           | Some t => r <? t
                           | None => true
                           end).
  assert (Hr : 0 ≤ r < sumWeights cs) by (apply Z.mod_pos_bound; lia).
  rewrite cumulative_length, length_fmap.
  destruct cs as [|c0 cs]; [done |].
  assert (Hidx : (search above 0 (length (c0 :: cs)) ≤ length (c0 :: cs) - 1)%nat).
  { apply search_below; simpl; try lia.
    unfold above. rewrite Nat.sub_0_r, cumulative_last. apply Z.ltb_lt. simpl in *. lia. }
  destruct (lookup_lt_is_Some_2 (c0 :: cs) (search above 0 (length (c0 :: cs))))
    as [ch Hch]; [simpl in *; lia |].
  exists ch. split; [by eapply list_elem_of_lookup_2 |].
  by rewrite Hch.
Qed.

Lemma NewChooser_inr_iff cs :
  (∃ e, NewChooser cs = inr e) ↔ (cs = [] ∨ ∃ ch, ch ∈ cs ∧ Weight ch ≤ 0).
Proof.
  unfold NewChooser. destruct cs as [|c0 cs].
  - split; [by left | by eexists].
  - destruct (forallb _ _) eqn:Hall.
    + split; [intros [e He]; done |].
      intros [? | (ch & Hin & Hw)]; [done |].
      rewrite forallb_forall in Hall. apply list_elem_of_In in Hin.
      specialize (Hall ch Hin). apply Z.ltb_lt in Hall. lia.
    + split; [| by eexists]. intros _. right.
      apply not_true_iff_false in Hall. rewrite forallb_forall in Hall.
      destruct (decide (Exists (λ ch, Weight ch ≤ 0) (c0 :: cs))) as [Hex | Hnex].
      * apply Exists_exists in Hex as (ch & Hin & Hw). eauto.
      * exfalso. apply Hall. intros ch Hin. apply Z.ltb_lt.
        apply list_elem_of_In in Hin.
        destruct (decide (Weight ch ≤ 0)) as [Hw | Hw]; [| lia].
        exfalso. apply Hnex. apply Exists_exists. eauto.
Qed.

End ChooserFacts.

(** C6. For the chooser as the spec describes it: construction fails exactly
    when there are zero entries or some weight is not positive; once
    construction has succeeded, every pick returns the action of an entry,
    whatever the random source yields.  For [New] over any chooser whose
    construction fails on the six entries: [New] hands back no Shop and an
    error, and when the run got as far as the construction that error is
    "failed to create random chooser: <cause>". *)
Theorem chooser_fails_at_construction_only :
  (∀ cs, (∃ e, weightedrand.NewChooser cs = inr e)
         ↔ (cs = [] ∨ ∃ ch, ch ∈ cs ∧ Weight ch ≤ 0)) ∧
  (∀ cs wr u, weightedrand.NewChooser cs = inl wr →
              ∃ ch, ch ∈ cs ∧ weightedrand.Pick wr u = Some (Item ch)) ∧
  (∀ Ch (E : Collaborators Ch) c l t0 e,
      NewChooser E choices = inr e →
      fst (snd (runNew E c l t0)) = None ∧
      is_Some (snd (snd (runNew E c l t0))) ∧
      (∀ cs e', EvNewChooser cs (Some e') ∈ trace (fst (runNew E c l t0)) →
                snd (snd (runNew E c l t0))
                  = Some (Wrapf "failed to create random chooser" e'))).
Proof.
  split; [apply NewChooser_inr_iff |]. split; [apply Pick_total |].
  intros Ch E c l t0 e Hfail. walk_New; try congruence.
  all: split; [reflexivity |]; split; [by eexists |].
  all: intros cs e' H; in_trace H; inversion H; subst; reflexivity.
Qed.

(** ** The dispatch machine: helper facts *)

Lemma wrapInt_small z : 0 ≤ z ≤ MaxInt → wrapInt z = z.
Proof.
  unfold wrapInt, MaxInt. intros Hz.
  rewrite Z.mod_small by lia. lia.
Qed.

Lemma concat_replicate_S {A} (x : list A) n :
  concat (replicate (S n) x) = concat (replicate n x) ++ x.
Proof.
  induction n as [|n IH]; [simpl; by rewrite app_nil_r |].
  change (concat (replicate (S (S n)) x)) with (x ++ concat (replicate (S n) x)).
  rewrite IH at 1. change (concat (replicate (S n) x)) with (x ++ concat (replicate n x)).
  by rewrite app_assoc.
Qed.

Lemma iterations_S n : iterations (S n) = iterations n ++ [Inc; Dispatch].
Proof. apply concat_replicate_S. Qed.

Lemma sleeps_iterations n : filter (λ ev, isSleep ev = true) (iterations n) = [].
Proof.
  induction n as [|n IH]; [reflexivity |].
  rewrite iterations_S, filter_app, IH. reflexivity.
Qed.

Lemma sleeps_ticks R D k :
  length (filter (λ ev, isSleep ev = true) (concat (replicate k (tick R D)))) = k.
Proof.
  induction k as [|k IH]; [reflexivity |].
  rewrite concat_replicate_S, filter_app, length_app, IH.
  unfold tick. rewrite filter_app, sleeps_iterations. simpl. lia.
Qed.

(** Replacing a goroutine by one of the same kind leaves the count alone. *)
Lemma count_insert_same (P : Goroutine → bool) (pool : list Goroutine) j g g' :
  pool !! j = Some g → P g' = P g →
  length (filter (λ x, P x = true) (<[j := g']> pool))
    = length (filter (λ x, P x = true) pool).
Proof.
  revert j. induction pool as [|x pool IH]; intros [|j] Hj HP; simpl in *; try done.
  - injection Hj as ->. rewrite !filter_cons. rewrite HP.
    destruct (decide (P g = true)); reflexivity.
  - rewrite !filter_cons. destruct (decide (P x = true)); simpl; by rewrite (IH j).
Qed.

(** ** The dispatch machine: the loop invariant *)

Section DispatchFacts.
Context {Chooser : Type}.
Variable Pick : Chooser → Z → Value.
Variable s : Shop Chooser.

Local Abbreviation R := (config.RequestRate (config.Shop (cfg s))).
Local Abbreviation D := (config.RequestRateInterval (config.Shop (cfg s))).

Lemma Goroutine_step_kind g inp g' out ex :
  Goroutine_step Pick s g inp = Some (g', out, ex) → isImpression g' = isImpression g.
Proof.
  destruct g as [t | [|err|] | [|v|v|fn|fn o]], inp; simpl; try done;
    try (intros [= <- _ _]; reflexivity).
  destruct (assertFunc v); intros [= <- _ _]; reflexivity.
Qed.

(** A move of a pool goroutine changes nothing the [Start] goroutine reads
    or writes, and no count of impressions. *)
Lemma Go_step_frame j inp st st' :
  step Pick s (Go j inp) st = Some st' →
  pc st' = pc st ∧ pageImpressionsSimulated st' = pageImpressionsSimulated st ∧
  history st' = history st ∧ issued st' = issued st ∧
  length (goroutines st') = length (goroutines st).
Proof.
  unfold step. destruct (exited st); [done |].
  destruct (goroutines st !! j) as [g|] eqn:Hj; [| done]. simpl.
  destruct (Goroutine_step Pick s g inp) as [[[g' out] ex]|] eqn:Hg; [| done]. simpl.
  intros [= <-]. simpl. repeat split; try reflexivity.
  - unfold issued. simpl. eapply count_insert_same; [exact Hj |].
    by eapply Goroutine_step_kind.
  - apply length_insert.
Qed.

Lemma issued_spawn_impression st pcI :
  issued (spawn (GImpression pcI) st) = S (issued st).
Proof.
  unfold issued, spawn. simpl. rewrite filter_app, length_app. simpl. lia.
Qed.

Hypothesis R_int : R ≤ MaxInt.

Lemma loopInv_start bg : loopInv s (startState bg).
Proof.
  exists 0%nat. simpl. repeat split. unfold issued. simpl.
  induction bg as [|t bg IH]; [reflexivity |]. simpl. rewrite filter_cons. simpl.
  destruct (decide (false = true)); [done | exact IH].
Qed.

Lemma loopInv_step l st st' :
  loopInv s st → step Pick s l st = Some st' → loopInv s st'.
Proof.
  intros [k Hinv] Hstep. destruct l as [|j inp].
  - unfold step in Hstep. destruct (exited st); [done |].
    unfold Start_step in Hstep.
    destruct (pc st) as [| | |i|i|i|i| |] eqn:Hpc; simpl in Hinv.
    + injection Hstep as <-. exists k. simpl.
      destruct Hinv as (Hh & Hc & Hi). rewrite Hh. done.
    + injection Hstep as <-. exists 0%nat. simpl.
      destruct Hinv as (Hh & Hc & Hi). rewrite Hh, Hc. repeat split.
      unfold issued in *. simpl. rewrite filter_app, length_app, Hi. reflexivity.
    + injection Hstep as <-. exists k. simpl.
      destruct Hinv as (Hh & Hc & Hi). rewrite Hh, Hc.
      change (issued (goto (PCond 0) st)) with (issued st). rewrite Hi.
      repeat split; try lia. simpl. by rewrite app_nil_r.
    + destruct Hinv as (Hrange & Hh & Hc & Hi).
      destruct (Z.ltb_spec i R) as [Hlt | Hge]; injection Hstep as <-; exists k; simpl.
      * repeat split; try done; lia.
      * assert (i = Z.of_nat (Z.to_nat R)) as -> by lia.
        rewrite Hh, Hc. change (issued (goto PSleep st)) with (issued st). rewrite Hi.
        rewrite !Nat2Z.id. done.
    + destruct Hinv as (Hrange & Hh & Hc & Hi).
      injection Hstep as <-. exists k. simpl. rewrite Hh, Hc.
      change (issued (goto _ (record _ (CounterInc st)))) with (issued st). rewrite Hi.
      repeat split; try lia. simpl. by rewrite <- ?app_assoc.
    + destruct Hinv as (Hrange & Hh & Hc & Hi).
      injection Hstep as <-. exists k. simpl. rewrite Hh, Hc.
      change (issued (goto _ (record _ (SimulatePageImpression st))))
        with (issued (spawn (GImpression ImPick) st)).
      rewrite issued_spawn_impression.
      repeat split; try lia. simpl. by rewrite <- ?app_assoc.
    + destruct Hinv as (Hrange & Hh & Hc & Hi).
      injection Hstep as <-. exists k. simpl.
      rewrite wrapInt_small by lia.
      change (issued (goto _ st)) with (issued st). rewrite Hh, Hc, Hi.
      repeat split; try lia.
      replace (Z.to_nat (i + 1)) with (S (Z.to_nat i)) by lia.
      by rewrite iterations_S.
    + destruct Hinv as (Hh & Hc & Hi).
      injection Hstep as <-. exists (S k). simpl.
      change (issued (goto _ (record _ st))) with (issued st). rewrite Hh, Hc, Hi.
      repeat split; try lia.
      change (tick R D ++ concat (replicate k (tick R D)))
        with (concat (replicate (S k) (tick R D))).
      rewrite concat_replicate_S. unfold tick at 3. simpl. by rewrite <- ?app_assoc.
    + done.
  - destruct (Go_step_frame _ _ _ _ Hstep) as (Hp & Hc & Hh & Hi & _).
    exists k. rewrite Hp, Hc, Hh, Hi. exact Hinv.
Qed.

Lemma reachable_loopInv bg st : reachable Pick s bg st → loopInv s st.
Proof.
  induction 1 as [| st l st' _ IH Hstep]; [apply loopInv_start |].
  by eapply loopInv_step.
Qed.

(** ** The dispatch machine: running the [Start] goroutine alone *)

Lemma exec_app ls1 ls2 st :
  exec Pick s (ls1 ++ ls2) st = exec Pick s ls1 st ≫= exec Pick s ls2.
Proof.
  revert st; induction ls1 as [|l ls1 IH]; intros st; simpl; [done |].
  destruct (step Pick s l st); [apply IH | done].
Qed.

Lemma exec_reachable bg ls st st' :
  reachable Pick s bg st → exec Pick s ls st = Some st' → reachable Pick s bg st'.
Proof.
  revert st; induction ls as [|l ls IH]; intros st Hr; simpl.
  - by intros [= <-].
  - destruct (step Pick s l st) as [st1|] eqn:Hstep; [| done].
    apply IH. by eapply reach_step.
Qed.

Lemma exec_Main_S n st st' :
  step Pick s Main st = Some st' →
  exec Pick s (replicate (S n) Main) st = exec Pick s (replicate n Main) st'.
Proof. intros Hstep. simpl. by rewrite Hstep. Qed.

(** [m] iterations of the inner loop, from its condition with [i] iterations
    done: four moves each. *)
Lemma run_iterations m i st :
  pc st = PCond i → exited st = false →
  0 ≤ i → i + Z.of_nat m ≤ Z.of_nat (Z.to_nat R) →
  exec Pick s (replicate (4 * m) Main) st
    = Some {| pc := PCond (i + Z.of_nat m);
              pageImpressionsSimulated := pageImpressionsSimulated st + Z.of_nat m;
              goroutines := goroutines st ++ replicate m (GImpression ImPick);
              output := output st;
              exited := false;
              history := history st ++ iterations m |}.
Proof.
  revert i st. induction m as [|m IH]; intros i st Hpc Hex Hi Hm.
  - destruct st as [p c g o e h]; simpl in *; subst.
    rewrite !Z.add_0_r, !app_nil_r. reflexivity.
  - replace (4 * S m)%nat with (4 + 4 * m)%nat by lia.
    rewrite replicate_add, exec_app.
    destruct st as [p c g o e h]; simpl in *; subst.
    unfold step, Start_step; simpl.
    destruct (Z.ltb_spec i R) as [Hlt | Hge]; [| lia]. simpl.
    rewrite wrapInt_small by lia.
    rewrite (IH (i + 1)); simpl; try done; try lia.
    f_equal. f_equal.
    all: try (f_equal; lia); try lia.
    all: rewrite <- ?app_assoc; reflexivity.
Qed.

(** One whole tick, from the head of the outer loop. *)
Lemma run_tick st :
  pc st = POuter → exited st = false →
  exec Pick s (replicate (4 * Z.to_nat R + 3) Main) st
    = Some {| pc := POuter;
              pageImpressionsSimulated :=
                pageImpressionsSimulated st + Z.of_nat (Z.to_nat R);
              goroutines := goroutines st ++ replicate (Z.to_nat R) (GImpression ImPick);
              output := output st;
              exited := false;
              history := history st ++ tick R D |}.
Proof.
  intros Hpc Hex.
  replace (4 * Z.to_nat R + 3)%nat with (S (4 * Z.to_nat R + 2))%nat by lia.
  rewrite (exec_Main_S _ st (goto (PCond 0) st))
    by (unfold step, Start_step; rewrite Hpc, Hex; reflexivity).
  rewrite replicate_add, exec_app.
  rewrite (run_iterations _ 0) by (try done; simpl; lia).
  destruct st as [p c g o e h]; simpl in Hpc, Hex; subst p e. simpl.
  unfold step, Start_step; simpl.
  destruct (Z.ltb_spec (0 + Z.of_nat (Z.to_nat R)) R) as [Hlt | Hge]; [lia |]. simpl.
  unfold tick, goto, record. simpl. by rewrite <- app_assoc.
Qed.

(** [n] whole ticks. *)
Lemma run_ticks n st :
  pc st = POuter → exited st = false →
  exec Pick s (replicate (n * (4 * Z.to_nat R + 3)) Main) st
    = Some {| pc := POuter;
              pageImpressionsSimulated :=
                pageImpressionsSimulated st + Z.of_nat n * Z.of_nat (Z.to_nat R);
              goroutines :=
                goroutines st ++ replicate (n * Z.to_nat R) (GImpression ImPick);
              output := output st;
              exited := false;
              history := history st ++ concat (replicate n (tick R D)) |}.
Proof.
  revert st. induction n as [|n IH]; intros st Hpc Hex.
  - destruct st as [p c g o e h]; simpl in *; subst.
    rewrite Z.add_0_r, !app_nil_r. reflexivity.
  - change (S n * (4 * Z.to_nat R + 3))%nat
      with ((4 * Z.to_nat R + 3) + n * (4 * Z.to_nat R + 3))%nat.
    rewrite replicate_add, exec_app, run_tick by done. simpl.
    rewrite IH by done. simpl. f_equal. f_equal.
    + lia.
    + rewrite <- app_assoc. f_equal. by rewrite <- replicate_add.
    + by rewrite <- app_assoc.
Qed.

Lemma mainRuns_refl st : mainRuns Pick s st st.
Proof. by exists 0%nat. Qed.

Lemma mainRuns_trans st1 st2 st3 : mainRuns Pick s st1 st2 → mainRuns Pick s st2 st3 → mainRuns Pick s st1 st3.
Proof.
  intros [m1 H1] [m2 H2]. exists (m1 + m2)%nat.
  by rewrite replicate_add, exec_app, H1.
Qed.

Lemma mainRuns_step st st1 st' :
  step Pick s Main st = Some st1 → mainRuns Pick s st1 st' → mainRuns Pick s st st'.
Proof.
  intros Hstep [m Hm]. exists (S m). by rewrite (exec_Main_S _ _ _ Hstep).
Qed.

(** From the loop condition, the rest of the tick. *)
Lemma finish_tick i st :
  pc st = PCond i → exited st = false → 0 ≤ i ≤ Z.of_nat (Z.to_nat R) →
  ∃ st', mainRuns Pick s st st' ∧ pc st' = POuter ∧ exited st' = false ∧
         sleeps st' = S (sleeps st).
Proof.
  intros Hpc Hex Hi.
  pose proof (run_iterations (Z.to_nat (Z.of_nat (Z.to_nat R) - i)) i st Hpc Hex) as Hrun.
  specialize (Hrun ltac:(lia) ltac:(lia)).
  replace (i + Z.of_nat (Z.to_nat (Z.of_nat (Z.to_nat R) - i)))
    with (Z.of_nat (Z.to_nat R)) in Hrun by lia.
  eexists. split; [| split; [| split]].
  - eapply mainRuns_trans; [eexists; exact Hrun |].
    eapply mainRuns_step.
    { unfold step, Start_step; simpl.
      destruct (Z.ltb_spec (Z.of_nat (Z.to_nat R)) R); [lia | reflexivity]. }
    eapply mainRuns_step; [reflexivity | apply mainRuns_refl].
  - reflexivity.
  - reflexivity.
  - unfold sleeps. simpl. rewrite !filter_app, !length_app, sleeps_iterations.
    simpl. lia.
Qed.

(** From anywhere a schedule can take it, the [Start] goroutine gets to the
    head of the outer loop by itself, completing at most one sleep. *)
Lemma next_outer st :
  loopInv s st → exited st = false →
  ∃ st', mainRuns Pick s st st' ∧ pc st' = POuter ∧ exited st' = false ∧
         (sleeps st' = sleeps st ∨ sleeps st' = S (sleeps st)).
Proof.
  intros [k Hinv] Hex.
  destruct st as [p c g o e h]. simpl in Hex. subst e.
  destruct p as [| | |i|i|i|i| |]; simpl in Hinv.
  - eexists. split; [| split; [| split]].
    + eapply mainRuns_step; [reflexivity |].
      eapply mainRuns_step; [reflexivity | apply mainRuns_refl].
    + reflexivity.
    + reflexivity.
    + left. destruct Hinv as (-> & _). reflexivity.
  - eexists. split; [| split; [| split]].
    + eapply mainRuns_step; [reflexivity | apply mainRuns_refl].
    + reflexivity.
    + reflexivity.
    + left. destruct Hinv as (-> & _). reflexivity.
  - eexists. split; [apply mainRuns_refl |]. split; [done |]. split; [done | by left].
  - destruct Hinv as (Hi & _).
    destruct (finish_tick i (mkState (PCond i) c g o false h) eq_refl eq_refl Hi)
      as (st' & Hrun & Hpc' & Hex' & Hs).
    exists st'. split; [done |]. split; [done |]. split; [done | by right].
  - destruct Hinv as (Hi & _).
    destruct (finish_tick (i + 1)
                (mkState (PCond (i + 1)) (c + 1) (g ++ [GImpression ImPick]) o false
                   ((h ++ [Inc]) ++ [Dispatch]))
                eq_refl eq_refl ltac:(lia))
      as (st' & Hrun & Hpc' & Hex' & Hs).
    exists st'. split; [| split; [done | split; [done |]]].
    + eapply mainRuns_step; [reflexivity |].
      eapply mainRuns_step; [reflexivity |].
      eapply mainRuns_step; [| exact Hrun].
      unfold step, Start_step; simpl. rewrite wrapInt_small by lia. reflexivity.
    + right. rewrite Hs. unfold sleeps. simpl.
      rewrite !filter_app, !length_app. simpl. lia.
  - destruct Hinv as (Hi & _).
    destruct (finish_tick (i + 1)
                (mkState (PCond (i + 1)) c (g ++ [GImpression ImPick]) o false
                   (h ++ [Dispatch]))
                eq_refl eq_refl ltac:(lia))
      as (st' & Hrun & Hpc' & Hex' & Hs).
    exists st'. split; [| split; [done | split; [done |]]].
    + eapply mainRuns_step; [reflexivity |].
      eapply mainRuns_step; [| exact Hrun].
      unfold step, Start_step; simpl. rewrite wrapInt_small by lia. reflexivity.
    + right. rewrite Hs. unfold sleeps. simpl.
      rewrite !filter_app, !length_app. simpl. lia.
  - destruct Hinv as (Hi & _).
    destruct (finish_tick (i + 1) (mkState (PCond (i + 1)) c g o false h)
                eq_refl eq_refl ltac:(lia))
      as (st' & Hrun & Hpc' & Hex' & Hs).
    exists st'. split; [| split; [done | split; [done |]]].
    + eapply mainRuns_step; [| exact Hrun].
      unfold step, Start_step; simpl. rewrite wrapInt_small by lia. reflexivity.
    + right. rewrite Hs. reflexivity.
  - eexists. split; [| split; [| split]].
    + eapply mainRuns_step; [reflexivity | apply mainRuns_refl].
    + reflexivity.
    + reflexivity.
    + right. unfold sleeps. simpl. rewrite filter_app, length_app. simpl. lia.
  - done.
Qed.

(** The [Start] goroutine can always complete [n] more sleeps by itself. *)
Lemma more_ticks n st :
  loopInv s st → exited st = false →
  ∃ st', mainRuns Pick s st st' ∧ exited st' = false ∧ sleeps st' = (sleeps st + n)%nat.
Proof.
  intros Hinv Hex. destruct n as [|n].
  { exists st. split; [apply mainRuns_refl |]. split; [done | lia]. }
  destruct (next_outer st Hinv Hex) as (st1 & Hrun1 & Hpc1 & Hex1 & Hs1).
  assert (Hgo : ∀ m, ∃ st', mainRuns Pick s st1 st' ∧ exited st' = false ∧
                            sleeps st' = (sleeps st1 + m)%nat).
  { intros m. eexists. split; [eexists; apply (run_ticks m st1 Hpc1 Hex1) |].
    split; [reflexivity |]. unfold sleeps. simpl.
    rewrite filter_app, length_app, sleeps_ticks. reflexivity. }
  destruct Hs1 as [Hs1 | Hs1].
  - destruct (Hgo (S n)) as (st' & Hrun & Hex' & Hs).
    exists st'. split; [by eapply mainRuns_trans |]. split; [done | lia].
  - destruct (Hgo n) as (st' & Hrun & Hex' & Hs).
    exists st'. split; [by eapply mainRuns_trans |]. split; [done | lia].
Qed.

(** ** The dispatch machine: fatal picks *)

Lemma fatalInv_start bg : fatalInv (startState bg).
Proof.
  intros j v. unfold startState. simpl. rewrite list_lookup_fmap.
  destruct (bg !! j); done.
Qed.

Lemma fatalInv_spawn g st :
  (∀ v, g ≠ GImpression (ImFatal v)) → fatalInv st → fatalInv (spawn g st).
Proof.
  intros Hg Hinv j v. unfold spawn. simpl. intros Hj.
  apply lookup_app_Some in Hj as [Hj | [_ Hj]]; [by eapply Hinv |].
  destruct (j - length (goroutines st))%nat; simpl in Hj; [| done].
  injection Hj as ->. by destruct (Hg v).
Qed.

Lemma fatalInv_step l st st' :
  fatalInv st → step Pick s l st = Some st' → fatalInv st'.
Proof.
  intros Hinv Hstep. unfold step in Hstep.
  destruct (exited st) eqn:Hex; [done |]. destruct l as [|j inp].
  - unfold Start_step in Hstep.
    destruct (pc st) as [| | |i|i|i|i| |]; try done;
      try (destruct (_ <? _)); injection Hstep as <-;
      try exact Hinv; try (apply fatalInv_spawn; [done | exact Hinv]).
  - destruct (goroutines st !! j) as [g|] eqn:Hj; [| done]. simpl in Hstep.
    destruct (Goroutine_step Pick s g inp) as [[[g' out] ex]|] eqn:Hg; [| done].
    simpl in Hstep. injection Hstep as <-. intros j' v. simpl. intros Hj'.
    destruct (decide (j = j')) as [<- | Hne].
    + rewrite list_lookup_insert_eq in Hj' by (by eapply lookup_lt_Some).
      injection Hj' as Hg'. subst g'.
      destruct g as [t | [|err|] | [|w|w|fn|fn o]], inp; simpl in Hg; try done.
      destruct (assertFunc w); inversion Hg; reflexivity.
    + rewrite list_lookup_insert_ne in Hj' by done.
      specialize (Hinv j' v Hj'). congruence.
Qed.

Lemma reachable_fatalInv bg st : reachable Pick s bg st → fatalInv st.
Proof.
  induction 1 as [| st l st' _ IH Hstep]; [apply fatalInv_start |].
  by eapply fatalInv_step.
Qed.

End DispatchFacts.

(** ** The dispatch loop: main results *)

Local Abbreviation rate s := (config.RequestRate (config.Shop (cfg s))).
Local Abbreviation interval s := (config.RequestRateInterval (config.Shop (cfg s))).

Lemma sleeps_at_outer (h : list MainEvent) R D k :
  h = prelude ++ concat (replicate k (tick R D)) →
  length (filter (λ ev, isSleep ev = true) h) = k.
Proof.
  intros ->. rewrite filter_app, length_app, sleeps_ticks. reflexivity.
Qed.

(** The head of the outer loop is reached from the start in two moves. *)
Lemma enter_loop {Ch} (Pick : Ch → Z → Value) (s : Shop Ch) bg :
  exec Pick s [Main; Main] (startState bg) = Some (loopEntry bg).
Proof. reflexivity. Qed.

(** C1. Let the rate R be positive (and an [int]) and the interval be D.
    In every state a schedule can reach in which [Start] stands at the head
    of its outer loop, with k sleeps completed: the history of [Start] is the
    prelude followed by k ticks, each tick being R times (increment the
    counter, then dispatch one impression) followed by one sleep of D; the
    counter equals k*R; and k*R impression goroutines have been issued.  Every
    k is reached.  A move of any pool goroutine (an action picking, running,
    returning after success or failure, or the process exiting) changes
    neither the counter nor the number issued; and the counter is never
    behind the number issued and at most one ahead of it. *)
Theorem Start_issues_rate_per_interval {Ch} (Pick : Ch → Z → Value) (s : Shop Ch) bg :
  0 < rate s → rate s ≤ MaxInt →
  (∀ st, reachable Pick s bg st → pc st = POuter →
     history st
       = [Handle "/metrics"; GoServe]
         ++ concat (replicate (sleeps st)
                      (concat (replicate (Z.to_nat (rate s)) [Inc; Dispatch])
                       ++ [Sleep (interval s)])) ∧
     pageImpressionsSimulated st = Z.of_nat (sleeps st) * rate s ∧
     Z.of_nat (issued st) = Z.of_nat (sleeps st) * rate s) ∧
  (∀ k, ∃ st, reachable Pick s bg st ∧ pc st = POuter ∧ sleeps st = k) ∧
  (∀ st j inp st',
     step Pick s (Go j inp) st = Some st' →
     pageImpressionsSimulated st' = pageImpressionsSimulated st ∧
     issued st' = issued st ∧ history st' = history st ∧ pc st' = pc st) ∧
  (∀ st, reachable Pick s bg st →
     Z.of_nat (issued st) ≤ pageImpressionsSimulated st ≤ Z.of_nat (issued st) + 1).
Proof.
  intros Hpos Hint. split; [| split; [| split]].
  - intros st Hreach Hpc.
    destruct (reachable_loopInv Pick s Hint bg st Hreach) as [k Hinv].
    rewrite Hpc in Hinv. simpl in Hinv. destruct Hinv as (Hh & Hc & Hi).
    assert (Hk : sleeps st = k)
      by exact (sleeps_at_outer _ (rate s) (interval s) k Hh).
    rewrite Hk. rewrite Z2Nat.id in Hc, Hi by lia.
    split; [rewrite Hh; reflexivity | split; assumption].
  - intros k. eexists. split; [| split].
    + eapply exec_reachable;
        [| apply (run_ticks Pick s Hint k (loopEntry bg)); reflexivity].
      eapply exec_reachable; [apply reach_start | apply enter_loop].
    + reflexivity.
    + apply (sleeps_at_outer _ (rate s) (interval s) k). reflexivity.
  - intros st j inp st' Hstep.
    destruct (Go_step_frame Pick s j inp st st' Hstep) as (? & ? & ? & ? & ?). done.
  - intros st Hreach.
    destruct (reachable_loopInv Pick s Hint bg st Hreach) as [k Hinv].
    destruct (pc st); simpl in Hinv; try done;
      destruct Hinv as (? & ? & ?); try lia.
Qed.

(** C2. Let goroutine [j] of a running process be an impression goroutine
    that has picked a value [v] which is not a [func()].  Then its next move
    exists, and it is the call of [logger.Fatal]: the entry is logged, the
    process has exited, the goroutine never gets past that call, and no
    goroutine, [Start] included, moves any more.  The goroutine has no other
    move (it cannot return without having invoked an action).  And in every
    reachable state, a goroutine inside [logger.Fatal] means an exited
    process. *)
Theorem non_func_pick_is_fatal {Ch} (Pick : Ch → Z → Value) (s : Shop Ch) st j v :
  exited st = false →
  goroutines st !! j = Some (GImpression (ImCheck v)) →
  assertFunc v = None →
  (∃ st', step Pick s (Go j Tick) st = Some st' ∧
          exited st' = true ∧
          goroutines st' !! j = Some (GImpression (ImFatal v)) ∧
          output st' = output st ++ [fatalEntry] ∧
          pageImpressionsSimulated st' = pageImpressionsSimulated st ∧
          ∀ l, step Pick s l st' = None) ∧
  (∀ inp st', step Pick s (Go j inp) st = Some st' → inp = Tick ∧ exited st' = true) ∧
  (∀ bg st0 i w,
      reachable Pick s bg st0 →
      goroutines st0 !! i = Some (GImpression (ImFatal w)) → exited st0 = true).
Proof.
  intros Hex Hj Hv. split; [| split].
  - unfold step. rewrite Hex, Hj. simpl. rewrite Hv. simpl.
    eexists. split; [reflexivity |]. simpl. repeat split.
    apply list_lookup_insert_eq. by eapply lookup_lt_Some.
  - intros inp st'. unfold step. rewrite Hex, Hj. simpl.
    destruct inp; simpl; try done. rewrite Hv. simpl. by intros [= <-].
  - intros bg st0 i w Hreach. by apply (reachable_fatalInv Pick s bg st0 Hreach).
Qed.

(** C7. Let the rate be positive (and an [int]).  (a) At line 119 the move of
    [Start] appends one new goroutine, standing before its call of [Pick], to
    the pool, touches no other goroutine, and goes on to the next iteration.
    (b) That goroutine, when scheduled and when the picked value is a
    [func()], picks, then invokes that one action, and returns when the action
    does.  (c) In a running process [Start] always has a move, whatever the
    pool goroutines are doing, and what the move does to the program point,
    the counter and the history of [Start] does not depend on the pool.
    (d) For every n some schedule reaches a state with at least n impression
    goroutines that have not even picked yet. *)
Theorem dispatch_is_fire_and_forget {Ch} (Pick : Ch → Z → Value) (s : Shop Ch) bg :
  0 < rate s → rate s ≤ MaxInt →
  (∀ st i, exited st = false → pc st = PSimulate i →
     ∃ st', step Pick s Main st = Some st' ∧
            goroutines st' = goroutines st ++ [GImpression ImPick] ∧
            pc st' = PPost i ∧
            pageImpressionsSimulated st' = pageImpressionsSimulated st ∧
            exited st' = false) ∧
  (∀ st j u fn o,
     exited st = false →
     goroutines st !! j = Some (GImpression ImPick) →
     Pick (chooser s) u = VFunc fn →
     ∃ st1 st2 st3,
       step Pick s (Go j (Random u)) st = Some st1 ∧
       step Pick s (Go j Tick) st1 = Some st2 ∧
       goroutines st2 !! j = Some (GImpression (ImCall fn)) ∧
       step Pick s (Go j (Returns o)) st2 = Some st3 ∧
       goroutines st3 !! j = Some (GImpression (ImExit fn o)) ∧
       mainView st3 = mainView st) ∧
  (∀ st, reachable Pick s bg st → exited st = false →
     is_Some (step Pick s Main st)) ∧
  (∀ st1 st2, exited st1 = false → exited st2 = false →
     mainView st1 = mainView st2 →
     mainView <$> step Pick s Main st1 = mainView <$> step Pick s Main st2) ∧
  (∀ n : nat, ∃ st, reachable Pick s bg st ∧ exited st = false ∧ (n ≤ waiting st)%nat).
Proof.
  intros Hpos Hint. split; [| split; [| split; [| split]]].
  - intros st i Hex Hpc. unfold step, Start_step. rewrite Hex, Hpc.
    eexists. split; [reflexivity |]. simpl. done.
  - intros st j u fn o Hex Hj Hpick.
    assert (Hlt : (j < length (goroutines st))%nat) by (by eapply lookup_lt_Some).
    assert (Hget : ∀ (g : Goroutine) (pool : list Goroutine),
                     length pool = length (goroutines st) →
                             <[j := g]> pool !! j = Some g).
    { intros g pool Hlen. apply list_lookup_insert_eq. by rewrite Hlen. }
    unfold step. rewrite Hex, Hj. simpl. rewrite Hpick.
    eexists _, _, _. split; [reflexivity |]. simpl.
    rewrite Hget by done. simpl.
    split; [reflexivity |]. simpl.
    rewrite Hget by (by rewrite length_insert).
    split; [reflexivity |]. simpl.
    split; [reflexivity |]. simpl.
    rewrite Hget by (by rewrite !length_insert).
    done.
  - intros st Hreach Hex.
    destruct (reachable_loopInv Pick s Hint bg st Hreach) as [k Hinv].
    unfold step, Start_step. rewrite Hex.
    destruct (pc st); try done; try (destruct (_ <? _)); done.
  - intros st1 st2 Hex1 Hex2 Hview. unfold mainView in Hview.
    injection Hview as Hpc Hc Hh.
    unfold step, Start_step. rewrite Hex1, Hex2, Hpc.
    destruct (pc st2); try (destruct (_ <? _)); simpl; unfold mainView; simpl;
      try rewrite Hc; try rewrite Hh; done.
  - intros n. eexists. split; [| split].
    + eapply exec_reachable;
        [| apply (run_ticks Pick s Hint n (loopEntry bg)); reflexivity].
      eapply exec_reachable; [apply reach_start | apply enter_loop].
    + reflexivity.
    + unfold waiting. simpl. rewrite filter_app, length_app.
      assert (Hall : ∀ m, length (filter (λ g, isWaiting g = true)
                                    (replicate m (GImpression ImPick))) = m).
      { induction m as [|m IH]; [reflexivity |].
        change (replicate (S m) (GImpression ImPick))
          with (GImpression ImPick :: replicate m (GImpression ImPick)).
        rewrite filter_cons_True by done. simpl. by rewrite IH. }
      rewrite Hall. nia.
Qed.

(** C10. Let the rate be an [int].  (a) When [ListenAndServe] returns an
    error, at whatever moment, the serving goroutine logs it and returns; the
    program point, counter and history of [Start], every other goroutine and
    the exit flag are left as they were.  (b) No schedule brings [Start] to
    its return point.  (c) In every reachable state of a running process,
    whatever has happened to the serving goroutine, [Start] has a move, and
    for every n it completes n more sleeps when it alone is scheduled. *)
Theorem serve_failure_leaves_Start_running {Ch} (Pick : Ch → Z → Value) (s : Shop Ch) bg :
  rate s ≤ MaxInt →
  (∀ st j err,
     exited st = false → goroutines st !! j = Some (GServe SvListen) →
     exec Pick s [Go j (ServeError err); Go j Tick] st
       = Some {| pc := pc st;
                 pageImpressionsSimulated := pageImpressionsSimulated st;
                 goroutines := <[j := GServe SvExit]> (goroutines st);
                 output := output st ++ [quitEntry err];
                 exited := false;
                 history := history st |}) ∧
  (∀ st, reachable Pick s bg st → pc st ≠ PReturn) ∧
  (∀ st, reachable Pick s bg st → exited st = false →
     is_Some (step Pick s Main st)) ∧
  (∀ st n, reachable Pick s bg st → exited st = false →
     ∃ m st', exec Pick s (replicate m Main) st = Some st' ∧
              exited st' = false ∧ sleeps st' = (sleeps st + n)%nat).
Proof.
  intros Hint. split; [| split; [| split]].
  - intros st j err Hex Hj.
    assert (Hlt : (j < length (goroutines st))%nat) by (by eapply lookup_lt_Some).
    simpl. unfold step at 1. rewrite Hex, Hj. simpl.
    unfold step. simpl. rewrite list_lookup_insert_eq by done. simpl.
    rewrite list_insert_insert_eq, app_nil_r. reflexivity.
  - intros st Hreach Hpc.
    destruct (reachable_loopInv Pick s Hint bg st Hreach) as [k Hinv].
    by rewrite Hpc in Hinv.
  - intros st Hreach Hex.
    destruct (reachable_loopInv Pick s Hint bg st Hreach) as [k Hinv].
    unfold step, Start_step. rewrite Hex.
    destruct (pc st); try done; try (destruct (_ <? _)); done.
  - intros st n Hreach Hex.
    destruct (more_ticks Pick s Hint n st (reachable_loopInv Pick s Hint bg st Hreach) Hex)
      as (st' & [m Hm] & Hex' & Hs).
    by exists m, st'.
Qed.

(** ** The theorems at concrete inputs *)

(** C3 with the address producer failing: the customer producer was
    initialized before, the frontend and order producers never are. *)
Lemma New_initialize_failure_aborts_witness :
  let E := addressInitFails in
  let c := demoConfig in
  let l := RootLogger in
  let t0 := 0 in
  let p := addressSvc in
  let ctx := {| deadline := Some 60000000000 |} in
  let a := 1000000000 in
  let b := 2000000000 in
  let e := Opaque "topic creation failed" in
  EvInitialize p ctx a b (Some e) ∈ trace (fst (runNew E c l t0)) ∧
  snd (runNew E c l t0)
    = (None, Some (Wrapf ("failed to initialize " +:+ name p +:+ " service") e)) ∧
  (∀ q ctx' a' b' err,
      EvInitialize q ctx' a' b' err ∈ trace (fst (runNew E c l t0)) →
      (position q ≤ position p)%nat) ∧
  started (trace (fst (runNew E c l t0))) = [] ∧
  background (fst (runNew E c l t0)) = [] ∧
  chooserCalls (trace (fst (runNew E c l t0))) = [].
Proof.
  intros E c l t0 p ctx a b e.
  assert (Hin : EvInitialize p ctx a b (Some e) ∈ trace (fst (runNew E c l t0)))
    by (vm_compute; repeat constructor).
  split; [exact Hin |].
  exact (New_initialize_failure_aborts E c l t0 p ctx a b e Hin).
Defined.

(** C9 with a chooser that cannot be built. *)
Lemma New_chooser_failure_after_go_witness :
  let E := chooserFails in
  let c := demoConfig in
  let l := RootLogger in
  let t0 := 0 in
  let cs := choices in
  let e := Opaque "sum of Choice Weights exceeds max int" in
  EvNewChooser cs (Some e) ∈ trace (fst (runNew E c l t0)) ∧
  snd (runNew E c l t0) = (None, Some (Wrapf "failed to create random chooser" e)) ∧
  background (fst (runNew E c l t0)) = [StartTask addressSvc; StartTask orderSvc] ∧
  (∃ pre post,
      trace (fst (runNew E c l t0))
        = pre ++ EvGo (StartTask addressSvc) :: EvGo (StartTask orderSvc)
              :: EvNewChooser cs (Some e) :: post ∧
      started pre = [] ∧ chooserCalls pre = []).
Proof.
  intros E c l t0 cs e.
  assert (Hin : EvNewChooser cs (Some e) ∈ trace (fst (runNew E c l t0)))
    by (vm_compute; repeat constructor).
  split; [exact Hin |].
  exact (New_chooser_failure_after_go E c l t0 cs e Hin).
Defined.


(** C1 with three impressions per second. *)
Lemma Start_issues_rate_per_interval_witness :
  let Pick := pickOrder in
  let s := demoShop in
  let bg := demoTasks in
  0 < rate s ∧ rate s ≤ MaxInt ∧
  (∀ st, reachable Pick s bg st → pc st = POuter →
     history st
       = [Handle "/metrics"; GoServe]
         ++ concat (replicate (sleeps st)
                      (concat (replicate (Z.to_nat (rate s)) [Inc; Dispatch])
                       ++ [Sleep (interval s)])) ∧
     pageImpressionsSimulated st = Z.of_nat (sleeps st) * rate s ∧
     Z.of_nat (issued st) = Z.of_nat (sleeps st) * rate s) ∧
  (∀ k, ∃ st, reachable Pick s bg st ∧ pc st = POuter ∧ sleeps st = k) ∧
  (∀ st j inp st',
     step Pick s (Go j inp) st = Some st' →
     pageImpressionsSimulated st' = pageImpressionsSimulated st ∧
     issued st' = issued st ∧ history st' = history st ∧ pc st' = pc st) ∧
  (∀ st, reachable Pick s bg st →
     Z.of_nat (issued st) ≤ pageImpressionsSimulated st ≤ Z.of_nat (issued st) + 1).
Proof.
  intros Pick s bg.
  assert (H1 : 0 < rate s) by reflexivity.
  assert (H2 : rate s ≤ MaxInt) by (vm_compute; discriminate).
  repeat (split; [assumption |]).
  exact (Start_issues_rate_per_interval Pick s bg H1 H2).
Defined.

(** C2 with a chooser that picks an [int]. *)
Lemma non_func_pick_is_fatal_witness :
  let Pick := pickInt in
  let s := demoShop in
  let st := pickedInt in
  let j := 3%nat in
  let v := VOther "int" in
  exited st = false ∧
  goroutines st !! j = Some (GImpression (ImCheck v)) ∧
  assertFunc v = None ∧
  (∃ st', step Pick s (Go j Tick) st = Some st' ∧
          exited st' = true ∧
          goroutines st' !! j = Some (GImpression (ImFatal v)) ∧
          output st' = output st ++ [fatalEntry] ∧
          pageImpressionsSimulated st' = pageImpressionsSimulated st ∧
          ∀ l, step Pick s l st' = None) ∧
  (∀ inp st', step Pick s (Go j inp) st = Some st' → inp = Tick ∧ exited st' = true) ∧
  (∀ bg st0 i w,
      reachable Pick s bg st0 →
      goroutines st0 !! i = Some (GImpression (ImFatal w)) → exited st0 = true).
Proof.
  intros Pick s st j v.
  assert (H1 : exited st = false) by reflexivity.
  assert (H2 : goroutines st !! j = Some (GImpression (ImCheck v))) by reflexivity.
  assert (H3 : assertFunc v = None) by reflexivity.
  repeat (split; [assumption |]).
  exact (non_func_pick_is_fatal Pick s st j v H1 H2 H3).
Defined.

(** C7 with three impressions per second. *)
Lemma dispatch_is_fire_and_forget_witness :
  let Pick := pickOrder in
  let s := demoShop in
  let bg := demoTasks in
  0 < rate s ∧ rate s ≤ MaxInt ∧
  (∀ st i, exited st = false → pc st = PSimulate i →
     ∃ st', step Pick s Main st = Some st' ∧
            goroutines st' = goroutines st ++ [GImpression ImPick] ∧
            pc st' = PPost i ∧
            pageImpressionsSimulated st' = pageImpressionsSimulated st ∧
            exited st' = false) ∧
  (∀ st j u fn o,
     exited st = false →
     goroutines st !! j = Some (GImpression ImPick) →
     Pick (chooser s) u = VFunc fn →
     ∃ st1 st2 st3,
       step Pick s (Go j (Random u)) st = Some st1 ∧
       step Pick s (Go j Tick) st1 = Some st2 ∧
       goroutines st2 !! j = Some (GImpression (ImCall fn)) ∧
       step Pick s (Go j (Returns o)) st2 = Some st3 ∧
       goroutines st3 !! j = Some (GImpression (ImExit fn o)) ∧
       mainView st3 = mainView st) ∧
  (∀ st, reachable Pick s bg st → exited st = false →
     is_Some (step Pick s Main st)) ∧
  (∀ st1 st2, exited st1 = false → exited st2 = false →
     mainView st1 = mainView st2 →
     mainView <$> step Pick s Main st1 = mainView <$> step Pick s Main st2) ∧
  (∀ n : nat, ∃ st, reachable Pick s bg st ∧ exited st = false ∧ (n ≤ waiting st)%nat).
Proof.
  intros Pick s bg.
  assert (H1 : 0 < rate s) by reflexivity.
  assert (H2 : rate s ≤ MaxInt) by (vm_compute; discriminate).
  repeat (split; [assumption |]).
  exact (dispatch_is_fire_and_forget Pick s bg H1 H2).
Defined.

(** C10 with three impressions per second. *)
Lemma serve_failure_leaves_Start_running_witness :
  let Pick := pickOrder in
  let s := demoShop in
  let bg := demoTasks in
  rate s ≤ MaxInt ∧
  (∀ st j err,
     exited st = false → goroutines st !! j = Some (GServe SvListen) →
     exec Pick s [Go j (ServeError err); Go j Tick] st
       = Some {| pc := pc st;
                 pageImpressionsSimulated := pageImpressionsSimulated st;
                 goroutines := <[j := GServe SvExit]> (goroutines st);
                 output := output st ++ [quitEntry err];
                 exited := false;
                 history := history st |}) ∧
  (∀ st, reachable Pick s bg st → pc st ≠ PReturn) ∧
  (∀ st, reachable Pick s bg st → exited st = false →
     is_Some (step Pick s Main st)) ∧
  (∀ st n, reachable Pick s bg st → exited st = false →
     ∃ m st', exec Pick s (replicate m Main) st = Some st' ∧
              exited st' = false ∧ sleeps st' = (sleeps st + n)%nat).
Proof.
  intros Pick s bg.
  assert (H1 : rate s ≤ MaxInt) by (vm_compute; discriminate).
  split; [assumption |].
  exact (serve_failure_leaves_Start_running Pick s bg H1).
Defined.

(** ** Sample runs *)

(** Every collaborator succeeds: [New] returns the Shop, has started the two
    background goroutines and has built the chooser from the six entries. *)
Example New_allGood_returns_Shop :
  snd (runNew allGood demoConfig RootLogger 0) = (Some demoShop, None) ∧
  background (fst (runNew allGood demoConfig RootLogger 0)) = demoTasks ∧
  callee <$> initCalls (trace (fst (runNew allGood demoConfig RootLogger 0))) = producers ∧
  chooserCalls (trace (fst (runNew allGood demoConfig RootLogger 0))) = [choices].
Proof. repeat split. Qed.

(** The error [New] returns when the address producer fails, as text and
    unwrapped. *)
Example New_address_failure_text :
  ∃ err,
    snd (runNew addressInitFails demoConfig RootLogger 0) = (None, Some err) ∧
    Error err = "failed to initialize address service: topic creation failed" ∧
    Unwrap err = Some (Opaque "topic creation failed").
Proof. eexists. repeat split. Qed.

(** Four producers of twenty seconds: the first three return at 20 s, 40 s
    and 60 s, the fourth is refused at the deadline. *)
Example New_slowProducers_calls :
  initCalls (trace (fst (runNew slowProducers demoConfig RootLogger 0)))
    = [ mkInitCall customerSvc (mkContext (Some 60000000000)) 0 20000000000 None;
        mkInitCall addressSvc (mkContext (Some 60000000000)) 20000000000 40000000000 None;
        mkInitCall frontendSvc (mkContext (Some 60000000000)) 40000000000 60000000000 None;
        mkInitCall orderSvc (mkContext (Some 60000000000)) 60000000000 60000000000
          (Some DeadlineExceeded) ] ∧
  snd (runNew slowProducers demoConfig RootLogger 0)
    = (None, Some (Wrapf "failed to initialize order service" DeadlineExceeded)).
Proof. split; reflexivity. Qed.

(** The chooser of the spec over the six entries, and some picks. *)
Example weightedrand_choices :
  ∃ wr,
    weightedrand.NewChooser choices = inl wr ∧
    weightedrand.totals wr = [1000; 1050; 1080; 1088; 1094; 1099] ∧
    weightedrand.max wr = 1099 ∧
    weightedrand.Pick wr 0 = Some (VFunc CreateFrontendEvent) ∧
    weightedrand.Pick wr 999 = Some (VFunc CreateFrontendEvent) ∧
    weightedrand.Pick wr 1000 = Some (VFunc CreateCustomer) ∧
    weightedrand.Pick wr 1087 = Some (VFunc DeleteCustomer) ∧
    weightedrand.Pick wr 1098 = Some (VFunc CreateOrder).
Proof. eexists. repeat split. Qed.

Example weightedrand_rejects :
  weightedrand.NewChooser [] = inr (Opaque "zero Choices") ∧
  weightedrand.NewChooser [mkChoice (VFunc CreateOrder) 5; mkChoice (VFunc CreateCustomer) 0]
    = inr (Opaque "non-positive Weight").
Proof. split; reflexivity. Qed.

(** Two ticks of [Start] alone, at three impressions per second. *)
Example Start_two_ticks :
  exec pickOrder demoShop (replicate 32 Main) (startState demoTasks)
    = Some {| pc := POuter;
              pageImpressionsSimulated := 6;
              goroutines :=
                [GTask (StartTask addressSvc); GTask (StartTask orderSvc); GServe SvListen]
                ++ replicate 6 (GImpression ImPick);
              output := [];
              exited := false;
              history :=
                [Handle "/metrics"; GoServe;
                 Inc; Dispatch; Inc; Dispatch; Inc; Dispatch; Sleep 1000000000;
                 Inc; Dispatch; Inc; Dispatch; Inc; Dispatch; Sleep 1000000000] |}.
Proof. reflexivity. Qed.

(** The state used for C2 is reached, and its fatal move ends the process:
    [Start] has no further move. *)
Example Start_fatal_pick :
  exec pickInt demoShop (replicate 6 Main ++ [Go 3 (Random 7)]) (startState demoTasks)
    = Some pickedInt ∧
  (exited <$> exec pickInt demoShop [Go 3 Tick] pickedInt) = Some true ∧
  exec pickInt demoShop [Go 3 Tick; Main] pickedInt = None.
Proof. repeat split. Qed.

(** The server fails at bind time; [Start] goes on. *)
Example Start_serve_fails_at_bind :
  (mainView <$> exec pickOrder demoShop
     ([Main; Main; Go 2 (ServeError (Opaque "listen tcp :8080: bind: address already in use"));
       Go 2 Tick] ++ replicate 30 Main) (startState demoTasks))
    = (mainView <$> exec pickOrder demoShop (replicate 32 Main) (startState demoTasks)).
Proof. reflexivity. Qed.

(** ** More on [New]: the failure paths *)


(** X2. If the run of [New] contains a producer constructor call that
    returned the error [e], then [New] returns no Shop and the error "failed
    to create <p> service: <e>" wrapping [e]; only [p] and the producers
    declared before it were constructed; no context was made, no producer was
    initialized, no goroutine was started, the chooser was never built and
    nothing was cancelled. *)
Theorem New_constructor_failure_aborts {Ch} (E : Collaborators Ch) c l t0 p lg e :
  EvNewService p lg (Some e) ∈ trace (fst (runNew E c l t0)) →
  snd (runNew E c l t0)
    = (None, Some (Wrapf ("failed to create " +:+ name p +:+ " service") e)) ∧
  constructed (trace (fst (runNew E c l t0))) = take (S (position p)) producers ∧
  timeouts (trace (fst (runNew E c l t0))) = [] ∧
  initCalls (trace (fst (runNew E c l t0))) = [] ∧
  background (fst (runNew E c l t0)) = [] ∧
  chooserCalls (trace (fst (runNew E c l t0))) = [] ∧
  cancels (trace (fst (runNew E c l t0))) = [].
Proof.
  walk_New; intros H; in_trace H; inversion H; subst; clear H; done.
Qed.

(** X3. The context [New] makes is cancelled on every way out: either the
    run made no context and cancelled nothing, or the trace ends with the
    cancellation of the one context it made, whose deadline is the instant it
    was made plus one minute; every [Initialize] call lies before that
    cancellation and received that context. *)
Theorem New_cancels_its_context {Ch} (E : Collaborators Ch) c l t0 :
  (timeouts (trace (fst (runNew E c l t0))) = [] ∧
   cancels (trace (fst (runNew E c l t0))) = [] ∧
   initCalls (trace (fst (runNew E c l t0))) = []) ∨
  (∃ body,
     trace (fst (runNew E c l t0))
       = body ++ [EvCancel {| deadline := Some (t0 + Minute) |}] ∧
     timeouts body = [Minute] ∧
     cancels body = [] ∧
     Forall (λ call, context call = {| deadline := Some (t0 + Minute) |}) (initCalls body)).
Proof.
  walk_New; first [ left; done | right ].
  - eexists (_ :: _ :: _ :: _ :: _ :: _ :: _ :: _ :: _ :: []).
    split; [reflexivity |]. repeat split. repeat constructor.
  - eexists (_ :: _ :: _ :: _ :: _ :: _ :: _ :: _ :: _ :: _ :: []).
    split; [reflexivity |]. repeat split. repeat constructor.
  - eexists (_ :: _ :: _ :: _ :: _ :: _ :: _ :: _ :: _ :: _ :: _ :: []).
    split; [reflexivity |]. repeat split. repeat constructor.
  - eexists (_ :: _ :: _ :: _ :: _ :: _ :: _ :: _ :: _ :: _ :: _ :: _ :: []).
    split; [reflexivity |]. repeat split. repeat constructor.
  - eexists (_ :: _ :: _ :: _ :: _ :: _ :: _ :: _ :: _ :: _ :: _ :: _ :: _ :: _ :: _ :: []).
    split; [reflexivity |]. repeat split. repeat constructor.
  - eexists (_ :: _ :: _ :: _ :: _ :: _ :: _ :: _ :: _ :: _ :: _ :: _ :: _ :: _ :: _ :: []).
    split; [reflexivity |]. repeat split. repeat constructor.
Qed.

(** X4. [New] fails fast.  In every run at most one collaborator call
    fails; a Shop is returned exactly when none fails and an error exactly
    when one does; the returned error wraps the collaborator's error, unless
    it is the schema registry one; and after the failed call nothing happens
    but the deferred cancellation of the context, if one was made. *)
Theorem New_fails_fast {Ch} (E : Collaborators Ch) c l t0 :
  (length (failures (trace (fst (runNew E c l t0)))) ≤ 1)%nat ∧
  (is_Some (fst (snd (runNew E c l t0))) ↔ failures (trace (fst (runNew E c l t0))) = []) ∧
  (is_Some (snd (snd (runNew E c l t0))) ↔ failures (trace (fst (runNew E c l t0))) ≠ []) ∧
  (∀ e, failures (trace (fst (runNew E c l t0))) = [e] →
        ∃ err, snd (snd (runNew E c l t0)) = Some err ∧
               (Unwrap err = Some e ∨
                err = Errorf "failed to create schema registry client")) ∧
  (afterFailure (trace (fst (runNew E c l t0))) = [] ∨
   afterFailure (trace (fst (runNew E c l t0)))
     = [EvCancel {| deadline := Some (t0 + Minute) |}]).
Proof.
  walk_New.
  all: split; [lia |].
  all: split; [split; [intros [s Hs]; first [discriminate Hs | reflexivity]
                      | intros Hf; first [discriminate Hf | by eexists]] |].
  all: split; [split; [intros [s Hs]; first [discriminate Hs | done]
                      | intros Hf; first [done | by eexists]] |].
  all: split; [intros e' Hf; first [discriminate Hf | injection Hf as <-; eexists; split;
               [reflexivity | first [left; reflexivity | right; reflexivity]]] |].
  all: first [left; reflexivity | right; reflexivity].
Qed.

(** X5. When [New] returns a Shop, the Shop holds the configuration and the
    logger [New] was given, the chooser [NewChooser] made from the six
    entries, and the customer producer; all four producers were constructed
    and then initialized, in declared order; and exactly the address and the
    order producer were started as goroutines, in this order. *)
Theorem New_success_shape {Ch} (E : Collaborators Ch) c l t0 s :
  fst (snd (runNew E c l t0)) = Some s →
  cfg s = c ∧ logger s = l ∧ customerSvc_ s = customerSvc ∧
  NewChooser E choices = inl (chooser s) ∧
  snd (snd (runNew E c l t0)) = None ∧
  constructed (trace (fst (runNew E c l t0))) = producers ∧
  callee <$> initCalls (trace (fst (runNew E c l t0))) = producers ∧
  started (trace (fst (runNew E c l t0))) = [StartTask addressSvc; StartTask orderSvc] ∧
  background (fst (runNew E c l t0)) = [StartTask addressSvc; StartTask orderSvc].
Proof.
  walk_New; intros Hs; try discriminate Hs. injection Hs as <-. done.
Qed.

(** X6. [New] starts goroutines only once all four producers are
    initialized: the goroutines it leaves behind are the address and order
    ones exactly when four [Initialize] calls were made and none failed,
    and none at all otherwise.  The customer and frontend producers are never
    started. *)
Theorem New_starts_after_all_initialized {Ch} (E : Collaborators Ch) c l t0 :
  (background (fst (runNew E c l t0)) = [StartTask addressSvc; StartTask orderSvc] ∧
   failure <$> initCalls (trace (fst (runNew E c l t0))) = [None; None; None; None]) ∨
  (background (fst (runNew E c l t0)) = [] ∧
   failure <$> initCalls (trace (fst (runNew E c l t0))) ≠ [None; None; None; None]).
Proof.
  walk_New; first [left; done | right; done].
Qed.

(** ** More on [Start]: schedules, exits and the pool *)

Section ScheduleFacts.
Context {Chooser : Type}.
Variable Pick : Chooser → Z → Value.
Variable s : Shop Chooser.

(** Two running processes in which [Start] sees the same make the same move
    of [Start]. *)
Lemma Main_step_view st1 st2 st1' :
  exited st2 = false → mainView st1 = mainView st2 →
  step Pick s Main st1 = Some st1' →
  ∃ st2', step Pick s Main st2 = Some st2' ∧ mainView st2' = mainView st1' ∧
          exited st2' = false.
Proof.
  intros Hex2 Hview. unfold mainView in Hview. injection Hview as Hpc Hc Hh.
  unfold step. destruct (exited st1); [done |]. rewrite Hex2.
  unfold Start_step. rewrite Hpc.
  destruct (pc st2); try (destruct (_ <? _)); intros [= <-];
    (eexists; split; [reflexivity |]); unfold mainView; simpl;
    rewrite ?Hc, ?Hh; done.
Qed.

Lemma exec_view_independent ls st1 st2 st1' :
  mainView st1 = mainView st2 → exited st2 = false →
  exec Pick s ls st1 = Some st1' →
  ∃ st2', exec Pick s (replicate (mainMoves ls) Main) st2 = Some st2' ∧
          mainView st2' = mainView st1' ∧ exited st2' = false.
Proof.
  revert st1 st2. induction ls as [|l ls IH]; intros st1 st2 Hview Hex2; simpl.
  - intros [= <-]. exists st2. done.
  - destruct (step Pick s l st1) as [s1|] eqn:Hstep; [| done]. intros Hrun.
    destruct l as [|j inp].
    + destruct (Main_step_view st1 st2 s1 Hex2 Hview Hstep) as (s2 & Hstep2 & Hv & Hex).
      destruct (IH s1 s2 (eq_sym Hv) Hex Hrun) as (st2' & Hrun2 & Hv' & Hex').
      exists st2'. split; [| done].
      unfold mainMoves. rewrite filter_cons_True by done. simpl. by rewrite Hstep2.
    + destruct (Go_step_frame Pick s j inp st1 s1 Hstep) as (Hp & Hc & Hh & _).
      assert (Hv : mainView s1 = mainView st2)
        by (rewrite <- Hview; unfold mainView; by rewrite Hp, Hc, Hh).
      destruct (IH s1 st2 Hv Hex2 Hrun) as (st2' & Hrun2 & Hv' & Hex').
      exists st2'. split; [| done].
      unfold mainMoves. rewrite filter_cons_False by done. exact Hrun2.
Qed.

(** What one move can do to the counter, the pool, the history and the log. *)
Lemma step_monotone l st st' :
  step Pick s l st = Some st' →
  pageImpressionsSimulated st ≤ pageImpressionsSimulated st'
    ≤ pageImpressionsSimulated st + (if isMain l then 1 else 0) ∧
  (length (goroutines st) ≤ length (goroutines st'))%nat ∧
  (issued st ≤ issued st')%nat ∧
  history st `prefix_of` history st' ∧
  output st `prefix_of` output st'.
Proof.
  intros Hstep. destruct l as [|j inp].
  - unfold step in Hstep. destruct (exited st); [done |].
    unfold Start_step in Hstep.
    destruct (pc st); try (destruct (_ <? _)); try done; injection Hstep as <-;
      unfold issued; simpl; rewrite ?filter_app, ?length_app; simpl;
      (split; [lia |]); (split; [lia |]); (split; [lia |]);
      split; first [reflexivity | by apply prefix_app_r].
  - destruct (Go_step_frame Pick s j inp st st' Hstep) as (Hp & Hc & Hh & Hi & Hlen).
    rewrite Hc, Hh, Hi, Hlen. simpl.
    split; [lia |]. split; [lia |]. split; [lia |]. split; [reflexivity |].
    unfold step in Hstep. destruct (exited st); [done |].
    destruct (goroutines st !! j) as [g|]; [| done]. simpl in Hstep.
    destruct (Goroutine_step Pick s g inp) as [[[g' out] ex]|]; [| done].
    injection Hstep as <-. simpl. by apply prefix_app_r.
Qed.


End ScheduleFacts.

Section PoolFacts.
Context {Chooser : Type}.
Variable Pick : Chooser → Z → Value.
Variable s : Shop Chooser.


Lemma Go_step_inv j inp st st' :
  step Pick s (Go j inp) st = Some st' →
  ∃ g g' out ex,
    exited st = false ∧ goroutines st !! j = Some g ∧
    Goroutine_step Pick s g inp = Some (g', out, ex) ∧
    goroutines st' = <[j := g']> (goroutines st) ∧
    output st' = output st ++ out ∧ exited st' = ex ∧ pc st' = pc st.
Proof.
  unfold step. destruct (exited st); [done |].
  destruct (goroutines st !! j) as [g|] eqn:Hj; [| done]. simpl.
  destruct (Goroutine_step Pick s g inp) as [[[g' out] ex]|] eqn:Hg; [| done]. simpl.
  intros [= <-]. by exists g, g', out, ex.
Qed.







Lemma GTask_step t inp g' out ex :
  Goroutine_step Pick s (GTask t) inp = Some (g', out, ex) →
  g' = GTask t ∧ out = [] ∧ ex = false.
Proof. destruct inp; simpl; try done. by intros [= <- <- <-]. Qed.

Lemma GServe_step sv inp g' out ex :
  Goroutine_step Pick s (GServe sv) inp = Some (g', out, ex) →
  ∃ sv', g' = GServe sv' ∧ hasExited sv = false ∧
         length (filter (λ e, isInfo e = true) out)
           = (if hasExited sv' then 1 else 0)%nat.
Proof.
  destruct sv, inp; simpl; try done; intros [= <- <- <-]; by eexists.
Qed.

Lemma GImpression_step g inp g' out ex :
  isImpression g = true →
  Goroutine_step Pick s g inp = Some (g', out, ex) →
  isImpression g' = true ∧ filter (λ e, isInfo e = true) out = [].
Proof.
  intros Himp Hg. split.
  - rewrite <- Himp. by eapply Goroutine_step_kind.
  - destruct g as [t | sv | [|v|v|fn|fn o]], inp; simpl in *; try done;
      try (by injection Hg as <- <- <-).
    destruct (assertFunc v); by injection Hg as <- <- <-.
Qed.

Lemma infoEntries_output st st' out :
  output st' = output st ++ out →
  infoEntries st' = (infoEntries st + length (filter (λ e, isInfo e = true) out))%nat.
Proof. unfold infoEntries. intros ->. by rewrite filter_app, length_app. Qed.

Lemma layoutInv_start bg : layoutInv bg (startState bg).
Proof. done. Qed.

Lemma layoutInv_Go bg j inp st st' :
  layoutInv bg st → step Pick s (Go j inp) st = Some st' → layoutInv bg st'.
Proof.
  intros Hinv Hstep.
  destruct (Go_step_inv j inp st st' Hstep)
    as (g & g' & out & ex & _ & Hj & Hg & Hp & Ho & _ & Hpc).
  pose proof (infoEntries_output st st' out Ho) as Hinfo.
  assert (Htask : ∀ pool, goroutines st = (GTask <$> bg) ++ pool →
                          (GTask <$> bg) !! j = Some g →
                          goroutines st' = (GTask <$> bg) ++ pool ∧
                          infoEntries st' = infoEntries st).
  { intros pool Hpool Hb. rewrite list_lookup_fmap in Hb.
    destruct (bg !! j) as [t|]; [| done]. injection Hb as <-.
    destruct (GTask_step t inp g' out ex Hg) as (-> & -> & _).
    rewrite Hp, list_insert_id by done. split; [done |]. rewrite Hinfo. simpl. lia. }
  unfold layoutInv in *. rewrite Hpc.
  assert (Hearly : goroutines st = GTask <$> bg ∧ infoEntries st = 0%nat →
                   goroutines st' = GTask <$> bg ∧ infoEntries st' = 0%nat).
  { intros (Hb & Hi). rewrite Hb in Hj.
    destruct (Htask [] ltac:(by rewrite app_nil_r) Hj) as (Hp' & Hi').
    rewrite app_nil_r in Hp'. by rewrite Hp', Hi'. }
  destruct (pc st); try (by apply Hearly).
  all: destruct Hinv as (sv & imps & Hpool & Himps & Hi); rewrite Hpool in Hj.
  all: apply lookup_app_Some in Hj as [Hj | [Hge Hj]];
    [ destruct (Htask _ Hpool Hj) as (Hp' & Hi'); exists sv, imps;
      by rewrite Hp', Hi' |].
  all: rewrite Hp, Hpool, insert_app_r_alt by done.
  all: destruct (j - length (GTask <$> bg))%nat as [|m]; simpl in Hj.
  all: try (injection Hj as <-;
            destruct (GServe_step sv inp g' out ex Hg) as (sv' & -> & Hsv & Hlen);
            exists sv', imps; split; [done |]; split; [done |];
            rewrite Hinfo, Hi, Hsv, Hlen; reflexivity).
  all: assert (Hgi : isImpression g = true)
    by (by apply (Forall_lookup_1 _ _ _ _ Himps Hj)).
  all: destruct (GImpression_step g inp g' out ex Hgi Hg) as (Hgi' & Hnone).
  all: exists sv, (<[m := g']> imps); split; [done |]; split;
    [by apply Forall_insert | rewrite Hinfo, Hnone, Hi; simpl; lia].
Qed.

Lemma layoutInv_Main bg st st' :
  layoutInv bg st → step Pick s Main st = Some st' → layoutInv bg st'.
Proof.
  unfold layoutInv, step. destruct (exited st); [done |]. unfold Start_step.
  destruct (pc st); try (destruct (_ <? _)); try done; intros Hinv [= <-]; simpl;
    try exact Hinv.
  - destruct Hinv as (Hb & Hi). exists SvListen, []. rewrite Hb. done.
  - destruct Hinv as (sv & imps & Hpool & Himps & Hi).
    exists sv, (imps ++ [GImpression ImPick]). rewrite Hpool, <- app_assoc.
    split; [done |]. split; [| done].
    apply Forall_app. split; [done | by repeat constructor].
Qed.

Lemma reachable_layoutInv bg st : reachable Pick s bg st → layoutInv bg st.
Proof.
  induction 1 as [| st l st' _ IH Hstep]; [apply layoutInv_start |].
  destruct l; [by eapply layoutInv_Main | by eapply layoutInv_Go].
Qed.


End PoolFacts.

Lemma concat_replicate_singleton {A} (x : A) n : concat (replicate n [x]) = replicate n x.
Proof. induction n as [|n IH]; [reflexivity |]. simpl. by rewrite IH. Qed.

Lemma issued_layout bg sv imps :
  Forall (λ g, isImpression g = true) imps →
  length (filter (λ g, isImpression g = true) ((GTask <$> bg) ++ GServe sv :: imps))
    = length imps.
Proof.
  intros Himps. rewrite filter_app, length_app, filter_cons_False by done.
  assert (Hb : filter (λ g, isImpression g = true) (GTask <$> bg) = []).
  { induction bg as [|t bg IH]; [reflexivity |]. simpl.
    by rewrite filter_cons_False. }
  rewrite Hb. simpl. f_equal.
  induction Himps as [|g imps Hg _ IH]; [reflexivity |].
  rewrite filter_cons_True by done. simpl. by rewrite IH.
Qed.

(** X7. With a rate that is zero or negative the inner loop body never runs:
    in every state a schedule can reach the counter is zero and no impression
    was ever issued; at the head of the outer loop the history of [Start] is
    the prelude followed by sleeps only; and [Start] still sleeps on, every
    number of completed sleeps being reached. *)
Theorem Start_nonpositive_rate_only_sleeps {Ch} (Pick : Ch → Z → Value) (s : Shop Ch) bg :
  rate s ≤ 0 →
  (∀ st, reachable Pick s bg st →
         pageImpressionsSimulated st = 0 ∧ issued st = 0%nat ∧
         (pc st = POuter →
          history st
            = [Handle "/metrics"; GoServe] ++ replicate (sleeps st) (Sleep (interval s)))) ∧
  (∀ n, ∃ st, reachable Pick s bg st ∧ pc st = POuter ∧ sleeps st = n).
Proof.
  intros Hrate.
  assert (Hint : rate s ≤ MaxInt) by (unfold MaxInt; lia).
  assert (Hz : Z.to_nat (rate s) = 0%nat) by lia.
  split.
  - intros st Hreach.
    destruct (reachable_loopInv Pick s Hint bg st Hreach) as [k Hinv].
    destruct (pc st) eqn:Hpc; simpl in Hinv; unfold tick in Hinv;
      rewrite ?Hz in Hinv; simpl in Hinv; try done;
      try (destruct Hinv as (? & ? & ? & ?); split; [lia |]; split; [lia | done]).
    + destruct Hinv as (? & ? & ?). done.
    + destruct Hinv as (? & ? & ?). done.
    + destruct Hinv as (Hh & Hc & Hi). split; [lia |]. split; [lia |]. intros _.
      rewrite concat_replicate_singleton in Hh.
      assert (Hk : sleeps st = k).
      { unfold sleeps. rewrite Hh, !filter_cons_False by done. clear.
        induction k as [|k IH]; [reflexivity |].
        change (replicate (S k) (Sleep (interval s)))
          with (Sleep (interval s) :: replicate k (Sleep (interval s))).
        rewrite filter_cons_True by done. simpl. by rewrite IH. }
      by rewrite Hk, Hh.
    + destruct Hinv as (Hh & Hc & Hi). split; [lia |]. split; [lia | done].
  - intros n. eexists. split; [| split].
    + eapply exec_reachable;
        [| apply (run_ticks Pick s Hint n (loopEntry bg)); reflexivity].
      eapply exec_reachable; [apply reach_start | apply enter_loop].
    + reflexivity.
    + apply (sleeps_at_outer _ (rate s) (interval s) n). reflexivity.
Qed.

(** X8. What [Start] has done does not depend on the schedule.  Whatever
    the pool goroutines did in between, a schedule that reaches a state leaves
    the program point of [Start], the counter and the history of [Start] as
    the same number of moves of [Start] alone would, and that run of [Start]
    alone is possible. *)
Theorem Start_view_is_schedule_independent {Ch} (Pick : Ch → Z → Value) (s : Shop Ch)
    bg ls st :
  exec Pick s ls (startState bg) = Some st →
  ∃ st', exec Pick s (replicate (mainMoves ls) Main) (startState bg) = Some st' ∧
         mainView st' = mainView st.
Proof.
  intros Hrun.
  destruct (exec_view_independent Pick s ls (startState bg) (startState bg) st
              eq_refl eq_refl Hrun) as (st' & Hrun' & Hv & _).
  by exists st'.
Qed.



(** X11. The pool keeps its layout.  In every state a schedule can reach:
    before [Start] has passed line 111 the pool is the goroutines [New]
    started and nothing was logged at Info level; afterwards the pool is
    those goroutines, then exactly one serving goroutine, then the impression
    goroutines, as many as were issued; and the log has one Info entry when
    the serving goroutine has returned and none otherwise. *)
Theorem Start_pool_layout {Ch} (Pick : Ch → Z → Value) (s : Shop Ch) bg st :
  reachable Pick s bg st →
  (pc st = PHandle ∨ pc st = PGoServe →
     goroutines st = GTask <$> bg ∧ infoEntries st = 0%nat) ∧
  (pc st ≠ PHandle → pc st ≠ PGoServe →
     ∃ sv imps,
       goroutines st = (GTask <$> bg) ++ GServe sv :: imps ∧
       Forall (λ g, isImpression g = true) imps ∧
       length imps = issued st ∧
       infoEntries st = (if hasExited sv then 1 else 0)%nat).
Proof.
  intros Hreach. pose proof (reachable_layoutInv Pick s bg st Hreach) as Hinv.
  unfold layoutInv in Hinv. split.
  - intros [Hpc | Hpc]; by rewrite Hpc in Hinv.
  - intros Hne1 Hne2. destruct (pc st); try done;
      destruct Hinv as (sv & imps & Hpool & Himps & Hi); exists sv, imps;
      (split; [done |]); (split; [done |]); (split; [| done]);
      unfold issued; rewrite Hpool; symmetry; by apply issued_layout.
Qed.

(** X12. Nothing is ever taken back.  Along every schedule, from any state,
    the counter does not decrease and rises by at most the number of moves of
    [Start]; the pool does not shrink; the number of impressions issued does
    not decrease; and the history of [Start] and the log are only extended. *)
Theorem Start_only_grows {Ch} (Pick : Ch → Z → Value) (s : Shop Ch) ls st st' :
  exec Pick s ls st = Some st' →
  pageImpressionsSimulated st ≤ pageImpressionsSimulated st'
    ≤ pageImpressionsSimulated st + Z.of_nat (mainMoves ls) ∧
  (length (goroutines st) ≤ length (goroutines st'))%nat ∧
  (issued st ≤ issued st')%nat ∧
  history st `prefix_of` history st' ∧
  output st `prefix_of` output st'.
Proof.
  revert st. induction ls as [|l ls IH]; intros st; simpl.
  - intros [= <-]. unfold mainMoves. simpl. repeat split; try lia; reflexivity.
  - destruct (step Pick s l st) as [s1|] eqn:Hstep; [| done]. intros Hrun.
    destruct (step_monotone Pick s l st s1 Hstep) as (Hc & Hl & Hi & Hh & Ho).
    destruct (IH s1 Hrun) as (Hc' & Hl' & Hi' & Hh' & Ho').
    assert (Hm : Z.of_nat (mainMoves (l :: ls))
                 = (if isMain l then 1 else 0) + Z.of_nat (mainMoves ls)).
    { unfold mainMoves. destruct l.
      - rewrite filter_cons_True by done. cbn [length isMain]. lia.
      - rewrite filter_cons_False by done. cbn [isMain]. lia. }
    rewrite Hm. split; [lia |]. split; [lia |]. split; [lia |].
    split; by etrans.
Qed.

(** ** The further results at concrete inputs *)


(** X2 with the frontend producer failing to be constructed: customer and
    address were constructed before it, order never is. *)
Lemma New_constructor_failure_aborts_witness :
  let E := frontendCtorFails in
  let c := demoConfig in
  let l := RootLogger in
  let t0 := 0 in
  let p := frontendSvc in
  let lg := Named RootLogger "frontend_svc" in
  let e := Opaque "no seed brokers" in
  EvNewService p lg (Some e) ∈ trace (fst (runNew E c l t0)) ∧
  snd (runNew E c l t0)
    = (None, Some (Wrapf ("failed to create " +:+ name p +:+ " service") e)) ∧
  constructed (trace (fst (runNew E c l t0))) = take (S (position p)) producers ∧
  timeouts (trace (fst (runNew E c l t0))) = [] ∧
  initCalls (trace (fst (runNew E c l t0))) = [] ∧
  background (fst (runNew E c l t0)) = [] ∧
  chooserCalls (trace (fst (runNew E c l t0))) = [] ∧
  cancels (trace (fst (runNew E c l t0))) = [].
Proof.
  intros E c l t0 p lg e.
  assert (Hin : EvNewService p lg (Some e) ∈ trace (fst (runNew E c l t0)))
    by (vm_compute; repeat constructor).
  split; [exact Hin |].
  exact (New_constructor_failure_aborts E c l t0 p lg e Hin).
Defined.

(** X5 with collaborators that all succeed. *)
Lemma New_success_shape_witness :
  let E := allGood in
  let c := demoConfig in
  let l := RootLogger in
  let t0 := 0 in
  let s := demoShop in
  fst (snd (runNew E c l t0)) = Some s ∧
  cfg s = c ∧ logger s = l ∧ customerSvc_ s = customerSvc ∧
  NewChooser E choices = inl (chooser s) ∧
  snd (snd (runNew E c l t0)) = None ∧
  constructed (trace (fst (runNew E c l t0))) = producers ∧
  callee <$> initCalls (trace (fst (runNew E c l t0))) = producers ∧
  started (trace (fst (runNew E c l t0))) = [StartTask addressSvc; StartTask orderSvc] ∧
  background (fst (runNew E c l t0)) = [StartTask addressSvc; StartTask orderSvc].
Proof.
  intros E c l t0 s.
  assert (H : fst (snd (runNew E c l t0)) = Some s) by reflexivity.
  split; [exact H |].
  exact (New_success_shape E c l t0 s H).
Defined.

(** X7 with a rate of zero. *)
Lemma Start_nonpositive_rate_only_sleeps_witness :
  let Pick := pickOrder in
  let s := idleShop in
  let bg := demoTasks in
  rate s ≤ 0 ∧
  (∀ st, reachable Pick s bg st →
         pageImpressionsSimulated st = 0 ∧ issued st = 0%nat ∧
         (pc st = POuter →
          history st
            = [Handle "/metrics"; GoServe] ++ replicate (sleeps st) (Sleep (interval s)))) ∧
  (∀ n, ∃ st, reachable Pick s bg st ∧ pc st = POuter ∧ sleeps st = n).
Proof.
  intros Pick s bg.
  assert (H : rate s ≤ 0) by (vm_compute; discriminate).
  split; [exact H |].
  exact (Start_nonpositive_rate_only_sleeps Pick s bg H).
Defined.

(** X8 with a schedule in which the server fails and an impression runs to
    its end between the moves of [Start]. *)
Lemma Start_view_is_schedule_independent_witness :
  let Pick := pickOrder in
  let s := demoShop in
  let bg := demoTasks in
  let ls := busySchedule in
  let st := busyState in
  exec Pick s ls (startState bg) = Some st ∧
  ∃ st', exec Pick s (replicate (mainMoves ls) Main) (startState bg) = Some st' ∧
         mainView st' = mainView st.
Proof.
  intros Pick s bg ls st.
  assert (H : exec Pick s ls (startState bg) = Some st) by reflexivity.
  split; [exact H |].
  exact (Start_view_is_schedule_independent Pick s bg ls st H).
Defined.



(** X11 at the state [busySchedule] reaches. *)
Lemma Start_pool_layout_witness :
  let Pick := pickOrder in
  let s := demoShop in
  let bg := demoTasks in
  let st := busyState in
  reachable Pick s bg st ∧
  (pc st = PHandle ∨ pc st = PGoServe →
     goroutines st = GTask <$> bg ∧ infoEntries st = 0%nat) ∧
  (pc st ≠ PHandle → pc st ≠ PGoServe →
     ∃ sv imps,
       goroutines st = (GTask <$> bg) ++ GServe sv :: imps ∧
       Forall (λ g, isImpression g = true) imps ∧
       length imps = issued st ∧
       infoEntries st = (if hasExited sv then 1 else 0)%nat).
Proof.
  intros Pick s bg st.
  assert (H : reachable Pick s bg st)
    by exact (exec_reachable Pick s bg busySchedule (startState bg) st
                (reach_start Pick s bg) eq_refl).
  split; [exact H |].
  exact (Start_pool_layout Pick s bg st H).
Defined.

(** X12 along [busySchedule]. *)
Lemma Start_only_grows_witness :
  let Pick := pickOrder in
  let s := demoShop in
  let ls := busySchedule in
  let st := startState demoTasks in
  let st' := busyState in
  exec Pick s ls st = Some st' ∧
  pageImpressionsSimulated st ≤ pageImpressionsSimulated st'
    ≤ pageImpressionsSimulated st + Z.of_nat (mainMoves ls) ∧
  (length (goroutines st) ≤ length (goroutines st'))%nat ∧
  (issued st ≤ issued st')%nat ∧
  history st `prefix_of` history st' ∧
  output st `prefix_of` output st'.
Proof.
  intros Pick s ls st st'.
  assert (H : exec Pick s ls st = Some st') by reflexivity.
  split; [exact H |].
  exact (Start_only_grows Pick s ls st st' H).
Defined.
